(** * road-bikef: the tyre recommendation ranker and the webhook relay

    A shallow embedding of [src/pages/Index.tsx] (the scoring and ranking
    done by [handleGenerate], the local explanation [generateReason]) and of
    the relay [handler], with the properties the specification states about
    them; and of the rest of the page (the handlers [handleReset],
    [handleLogoClick], [handleFeedback] and [handleCopy], the effect that
    keeps the title and the meta elements, the controls the page renders),
    with further properties read off the code.

    JavaScript numbers are IEEE-754 binary64 values.  The ranker is written
    once, over an interface [Number] of the operations it uses, and the
    interface is instantiated twice: by Rocq's primitive binary64 floats
    ([Binary64], what the program computes bit for bit) and by the rationals
    ([Exact], the arithmetic the specification reasons in).  Properties of
    the list manipulation are proved for every instance.  Properties that
    speak of the order of scores are proved for every instance whose
    comparison is lawful; the rationals are, and so is binary64 away from
    NaN.  That rounding is monotone is proved for binary64 itself, from the
    specification of the primitive floats. *)

From Stdlib Require Import ZArith QArith Qminmax Lqa Lia Bool List String Ascii.
From Stdlib Require Import Permutation Sorted.
From Stdlib Require Import Floats Uint63 DecimalString.
Import ListNotations.

Set Implicit Arguments.
#[local] Set Warnings "-register-all".

(** ** JavaScript numbers *)

(** What the ranker needs of a JavaScript number: decimal literals, the
    arithmetic [+ - *], [Math.min] and the comparisons [<] and [<=]
    ([a >= b] is [b <= a]). *)
Class Number : Type := {
  num : Type;
  (** [lit m k] is the number the decimal literal [m * 10^-k] denotes *)
  lit : Z -> nat -> num;
  nadd : num -> num -> num;
  nsub : num -> num -> num;
  nmul : num -> num -> num;
  Math_min : num -> num -> num;
  nltb : num -> num -> bool;
  nleb : num -> num -> bool
}.

Declare Scope js_scope.
Delimit Scope js_scope with js.
Infix "+" := nadd : js_scope.
Infix "-" := nsub : js_scope.
Infix "*" := nmul : js_scope.
Infix "<?" := nltb : js_scope.
Infix "<=?" := nleb : js_scope.
Notation "a >=? b" := (nleb b a) (at level 70, only parsing) : js_scope.
Notation "a >? b" := (nltb b a) (at level 70, only parsing) : js_scope.

(** Binary64, as the engine computes it.  A decimal literal denotes the
    double nearest to it; the correctly rounded quotient of the two exactly
    representable integers [m] and [10^k] is that double. *)
Module Binary64.

Definition of_Z (z : Z) : float :=
  match z with
  | Z0 => PrimFloat.zero
  | Zpos _ => PrimFloat.of_uint63 (Uint63.of_Z z)
  | Zneg p => PrimFloat.opp (PrimFloat.of_uint63 (Uint63.of_Z (Zpos p)))
  end.

Definition literal (m : Z) (k : nat) : float :=
  PrimFloat.div (of_Z m) (of_Z (10 ^ Z.of_nat k)).

(** [Math.min]: NaN if either argument is NaN, and [-0] is below [+0]. *)
Definition math_min (a b : float) : float :=
  if PrimFloat.is_nan a || PrimFloat.is_nan b then PrimFloat.nan
  else if PrimFloat.ltb a b then a
  else if PrimFloat.ltb b a then b
  else if PrimFloat.get_sign a then a else b.

#[export] Instance number : Number := {|
  num := float;
  lit := literal;
  nadd := PrimFloat.add;
  nsub := PrimFloat.sub;
  nmul := PrimFloat.mul;
  Math_min := math_min;
  nltb := PrimFloat.ltb;
  nleb := PrimFloat.leb
|}.

End Binary64.

(** Exact rational arithmetic. *)
Module Exact.

Definition literal (m : Z) (k : nat) : Q := Qmake m (Z.to_pos (10 ^ Z.of_nat k)).

Definition ltb (a b : Q) : bool := negb (Qle_bool b a).

Definition math_min (a b : Q) : Q := if Qle_bool a b then a else b.

#[export] Instance number : Number := {|
  num := Q;
  lit := literal;
  nadd := Qplus;
  nsub := Qminus;
  nmul := Qmult;
  Math_min := math_min;
  nltb := ltb;
  nleb := Qle_bool
|}.

End Exact.

(** ** Promises *)

(** How an awaited promise settles. *)
Inductive Settled (A : Type) : Type :=
  | Fulfilled (value : A)
  | Rejected (reason : string).
Arguments Fulfilled {A} value.
Arguments Rejected {A} reason.

(** [Promise.all]: fulfilled with all the values when every promise is
    fulfilled, rejected as soon as one is.  Which rejection comes first in
    time is not modelled; the reason kept is the first in the list. *)
Fixpoint Promise_all {A : Type} (ps : list (Settled A)) : Settled (list A) :=
  match ps with
  | [] => Fulfilled []
  | Rejected e :: _ => Rejected e
  | Fulfilled a :: ps' =>
      match Promise_all ps' with
      | Fulfilled l => Fulfilled (a :: l)
      | Rejected e => Rejected e
      end
  end.

(** ** Data model *)

Inductive WetPreference : Type := Very | Normal | Not.
Inductive WidthPreference : Type := W28 | Wider.

Section Model.
Context {N : Number}.
Local Open Scope js_scope.

(** A row of the [tires] table.  The generated table type is not part of the
    sources; the fields are the ones the page reads. *)
Record Tire : Type := {
  tire_id : string;
  brand : string;
  model : string;
  width_spec_mm : option Z;
  wet_center : option num;
  wet_edge : option num;
  rr_high_w : option num;
  price : option num;
  source_site : option string
}.

Record TireWithScore : Type := {
  tire : Tire;
  score : num;
  wg : num;
  rr : num;
  explanation : string
}.

Record Weights : Type := { w_wg : num; w_rr : num }.

Definition WEIGHT_CONFIG (p : WetPreference) : Weights :=
  match p with
  | Very => {| w_wg := lit 8 1; w_rr := lit 2 1 |}
  | Normal => {| w_wg := lit 6 1; w_rr := lit 4 1 |}
  | Not => {| w_wg := lit 35 2; w_rr := lit 65 2 |}
  end.

Definition generateReason (tire : TireWithScore) (wetPref : WetPreference) : string :=
  let wgStrong := wg tire >=? lit 75 0 in
  let rrLow := rr tire <=? lit 12 0 in
  match wetPref with
  | Very =>
      if wgStrong then "湿地安全感优先，抓地力表现优异，适合多雨路况骑行"
      else "湿地性能在可接受范围，综合表现较好"
  | Not =>
      if rrLow then "效率与速度的最佳平衡，滚阻保持在低水平，适合竞速训练"
      else "综合性能均衡，滚阻与抓地力兼顾"
  | Normal =>
      if wgStrong && rrLow then "湿地安全感与效率兼顾，全能型选手，适合日常训练与长途"
      else if wgStrong then "湿地抓地出色，安全性更强，滚阻保持在可接受范围"
      else if rrLow then "滚阻表现优秀，骑行更省力，湿地性能在合理水平"
      else "综合性能均衡，湿地与效率表现稳定，适合日常通勤骑行"
  end%string.

(** ** The ranker: the pure part of [handleGenerate] *)

(** [x || []] on a nullable array, [x || 0] on a nullable number: [null] and
    the falsy [0] both give [0]. *)
Definition or_empty {A : Type} (data : option (list A)) : list A :=
  match data with Some l => l | None => [] end.

Definition or_zero (w : option Z) : Z :=
  match w with Some z => z | None => 0%Z end.

(** A non-null assertion [x!] is erased by the compiler; where a number is
    expected a [null] would read as [0].  After the filter below the value is
    never [null]. *)
Definition assert_nonnull (x : option num) : num :=
  match x with Some v => v | None => lit 0 0 end.

Definition isNull {A : Type} (x : option A) : bool :=
  match x with Some _ => false | None => true end.

(** [t.wet_center != null && t.wet_edge != null && t.rr_high_w != null] *)
Definition eligible (t : Tire) : bool :=
  negb (isNull (wet_center t)) && negb (isNull (wet_edge t)) && negb (isNull (rr_high_w t)).

Definition validTires (data : option (list Tire)) : list Tire :=
  filter eligible (or_empty data).

(** [wg * weights.wg + rrNorm * weights.rr] *)
Definition score_of (weights : Weights) (wg rrNorm : num) : num :=
  wg * w_wg weights + rrNorm * w_rr weights.

Definition withScore (weights : Weights) (t : Tire) : TireWithScore :=
  let wg := Math_min (assert_nonnull (wet_center t)) (assert_nonnull (wet_edge t)) in
  let rr := assert_nonnull (rr_high_w t) in
  let rrNorm := lit 30 0 - rr in
  let score := score_of weights wg rrNorm in
  {| tire := t; score := score; wg := wg; rr := rr; explanation := "" |}.

Definition tiresWithScore (wetPref : WetPreference) (data : option (list Tire))
  : list TireWithScore :=
  let weights := WEIGHT_CONFIG wetPref in
  map (withScore weights) (validTires data).

Definition preferredWidths (widthPref : WidthPreference) : list Z :=
  match widthPref with W28 => [28%Z] | Wider => [30%Z; 32%Z] end.

(** [Array.prototype.includes] on an array of integers *)
Definition includes (ws : list Z) (w : Z) : bool := existsb (Z.eqb w) ws.

Definition hasPreferredWidth (widthPref : WidthPreference) (t : TireWithScore) : bool :=
  includes (preferredWidths widthPref) (or_zero (width_spec_mm (tire t))).

(** [Array.prototype.sort] with a comparison function.  The sort is stable
    (ECMAScript 2019): [x], which comes before the elements of [l] in the
    input, is moved behind [y] only when [comparefn x y > 0]; a NaN result
    counts as [+0].  For a consistent comparison function the result is the
    one every stable sort gives. *)
Fixpoint sort_insert {A : Type} (comparefn : A -> A -> num) (x : A) (l : list A) : list A :=
  match l with
  | [] => [x]
  | y :: l' =>
      if comparefn x y >? lit 0 0 then y :: sort_insert comparefn x l'
      else x :: y :: l'
  end.

Definition sort {A : Type} (comparefn : A -> A -> num) (l : list A) : list A :=
  fold_right (sort_insert comparefn) [] l.

(** [(a, b) => b.score - a.score] *)
Definition byScoreDesc (a b : TireWithScore) : num := score b - score a.

(** The merge loop [while (top3.length < 3) { ... }].  Every iteration pushes
    one item or breaks, so three iterations are enough; [fuel] bounds the
    iterations and [merge_fuel_irrelevant] shows the bound is never what
    stops the loop. *)
Fixpoint merge_loop (fuel : nat) (preferred others top3 : list TireWithScore) (i j : nat)
  : list TireWithScore :=
  match fuel with
  | O => top3
  | S fuel' =>
      if (List.length top3 <? 3)%nat then
        if (i <? List.length preferred)%nat then
          match nth_error preferred i with
          | Some x => merge_loop fuel' preferred others (top3 ++ [x]) (S i) j
          | None => top3
          end
        else if (j <? List.length others)%nat then
          match nth_error others j with
          | Some x => merge_loop fuel' preferred others (top3 ++ [x]) i (S j)
          | None => top3
          end
        else top3
      else top3
  end.

(** From the fetched rows to [top3]. *)
Definition rank (data : option (list Tire)) (wetPref : WetPreference)
  (widthPref : WidthPreference) : list TireWithScore :=
  let scored := tiresWithScore wetPref data in
  let preferred := filter (hasPreferredWidth widthPref) scored in
  let others := filter (fun t => negb (hasPreferredWidth widthPref t)) scored in
  let preferred := sort byScoreDesc preferred in
  let others := sort byScoreDesc others in
  merge_loop 3 preferred others [] 0 0.

(** ** The page: [handleGenerate] with its effects *)

(** [{ data, error }] as the table query resolves. *)
Record QueryResult : Type := {
  data : option (list Tire);
  error : option string
}.

(** [{ data, error }] as [functions.invoke] resolves; [inv_data] is the
    [explanation] field of the body, [None] when the body is [null]. *)
Record InvokeResult : Type := {
  inv_data : option string;
  inv_error : option string
}.

(** The hosted backend: the rows query and the [explain_tires] function,
    called with [{ tire, wetPref }]. *)
Record Supabase : Type := {
  select_tires : Settled QueryResult;
  functions_invoke : TireWithScore -> WetPreference -> Settled InvokeResult
}.

Record PageState : Type := {
  wetPref : WetPreference;
  widthPref : WidthPreference;
  results : list TireWithScore;
  loading : bool;
  showResults : bool;
  feedback : option string
}.

(** [{ ...tire, explanation: e }] *)
Definition with_explanation (t : TireWithScore) (e : string) : TireWithScore :=
  {| tire := tire t; score := score t; wg := wg t; rr := rr t; explanation := e |}.

(** The callback mapped over [top3]: how its promise settles, and what it
    writes to the console. *)
Definition explainTire (sb : Supabase) (wetPref : WetPreference) (t : TireWithScore)
  : Settled TireWithScore * list string :=
  match functions_invoke sb t wetPref with
  | Rejected e => (Rejected e, [])
  | Fulfilled r =>
      match inv_error r with
      | Some _ =>
          (Fulfilled (with_explanation t (generateReason t wetPref)),
           [("Error explaining tire " ++ tire_id (tire t) ++ ":")%string])
      | None =>
          match inv_data r with
          | Some e => (Fulfilled (with_explanation t e), [])
          | None => (Rejected "TypeError", [])
          end
      end
  end.

(** The body of the [try] block: the value of [explainedTop3], or the
    exception that leaves the block. *)
Definition generate (sb : Supabase) (wetPref : WetPreference) (widthPref : WidthPreference)
  : Settled (list TireWithScore) * list string :=
  match select_tires sb with
  | Rejected e => (Rejected e, [])
  | Fulfilled q =>
      match error q with
      | Some e => (Rejected e, [])
      | None =>
          let top3 := rank (data q) wetPref widthPref in
          let settled := map (explainTire sb wetPref) top3 in
          (Promise_all (map fst settled), List.concat (map snd settled))
      end
  end.

(** [handleGenerate]: the page state it leaves and the console lines.  The
    analytics event reported after [setShowResults] changes no state and is
    left out. *)
Definition handleGenerate (sb : Supabase) (st : PageState) : PageState * list string :=
  match generate sb (wetPref st) (widthPref st) with
  | (Fulfilled explainedTop3, log) =>
      ({| wetPref := wetPref st; widthPref := widthPref st;
          results := explainedTop3; loading := false;
          showResults := true; feedback := None |}, log)
  | (Rejected e, log) =>
      ({| wetPref := wetPref st; widthPref := widthPref st;
          results := results st; loading := false;
          showResults := showResults st; feedback := None |},
       log ++ ["Error fetching tires:"%string])
  end.

End Model.

(** ** The webhook relay *)

Module Relay.
Local Open Scope string_scope.

(** JSON values: the parsed request body and the payload sent upstream.
    Numbers are kept as integers; the relay never looks inside one. *)
Inductive JSON : Type :=
  | JNull
  | JBool (b : bool)
  | JNumber (z : Z)
  | JString (s : string)
  | JArray (items : list JSON)
  | JObject (props : list (string * JSON)).

Definition dquote : ascii := "034"%char.

Definition hex_digit (n : nat) : ascii :=
  nth n ["0"; "1"; "2"; "3"; "4"; "5"; "6"; "7"; "8"; "9";
         "a"; "b"; "c"; "d"; "e"; "f"]%char "0"%char.

(** One character of [QuoteJSONString]. *)
Definition quote_char (c : ascii) : string :=
  let n := nat_of_ascii c in
  if (n =? 34)%nat then String "\" (String dquote "")
  else if (n =? 92)%nat then "\\"
  else if (n =? 8)%nat then "\b"
  else if (n =? 12)%nat then "\f"
  else if (n =? 10)%nat then "\n"
  else if (n =? 13)%nat then "\r"
  else if (n =? 9)%nat then "\t"
  else if (n <? 32)%nat then
    "\u00" ++ String (hex_digit (n / 16)) (String (hex_digit (n mod 16)) "")
  else String c "".

Fixpoint quote_chars (s : string) : string :=
  match s with
  | EmptyString => ""
  | String c rest => quote_char c ++ quote_chars rest
  end.

Definition QuoteJSONString (s : string) : string :=
  String dquote (quote_chars s ++ String dquote "").

(** [JSON.stringify] without indentation. *)
Fixpoint stringify (j : JSON) : string :=
  match j with
  | JNull => "null"
  | JBool b => if b then "true" else "false"
  | JNumber z => DecimalString.NilZero.string_of_int (Z.to_int z)
  | JString s => QuoteJSONString s
  | JArray items => "[" ++ String.concat "," (map stringify items) ++ "]"
  | JObject props =>
      "{" ++ String.concat ","
               (map (fun '(k, v) => QuoteJSONString k ++ ":" ++ stringify v) props)
          ++ "}"
  end.

Definition buildPayload (text : string) : JSON :=
  JObject [("msg_type", JString "text");
           ("content", JObject [("text", JString text)])].

Record Request : Type := {
  method : string;
  body : option JSON
}.

Record Response : Type := {
  status : Z;
  sent : string
}.

(** The second argument of [fetch]. *)
Record FetchInit : Type := {
  init_method : string;
  init_headers : list (string * string);
  init_body : string
}.

(** What the webhook answers: [response.status] and [await response.text()]. *)
Record Upstream : Type := {
  up_status : Z;
  up_text : string
}.

(** [response.ok] *)
Definition ok (r : Upstream) : bool :=
  (200 <=? up_status r)%Z && (up_status r <=? 299)%Z.

Fixpoint get_prop (name : string) (props : list (string * JSON)) : option JSON :=
  match props with
  | [] => None
  | (k, v) :: rest => if String.eqb k name then Some v else get_prop name rest
  end.

(** [req.body?.text]: [None] is [undefined] *)
Definition text_field (body : option JSON) : option JSON :=
  match body with
  | Some (JObject props) => get_prop "text" props
  | _ => None
  end.

(** [typeof req.body?.text === "string" ? req.body.text : null] *)
Definition text_of (body : option JSON) : option string :=
  match text_field body with
  | Some (JString s) => Some s
  | _ => None
  end.

(** A string that may be [null] or [undefined], as a condition: [!x] holds
    of [null], [undefined] and the empty string; [truthy x] is the string
    otherwise. *)
Definition truthy (x : option string) : option string :=
  match x with
  | None => None
  | Some s => if String.eqb s "" then None else Some s
  end.

Definition respond (code : Z) (text : string) : Settled Response :=
  Fulfilled {| status := code; sent := text |}.

(** What a call of [handler] does: the response it sends (or the exception
    it ends with, when [fetch] itself rejects) and the requests it made. *)
Record Handled : Type := {
  response : Settled Response;
  fetched : list (string * FetchInit)
}.

Definition handler (FEISHU_WEBHOOK : option string)
  (fetch : string -> FetchInit -> Settled Upstream) (req : Request) : Handled :=
  if negb (String.eqb (method req) "POST") then
    {| response := respond 405 "Method Not Allowed"; fetched := [] |}
  else
    match truthy FEISHU_WEBHOOK with
    | None => {| response := respond 500 "Missing FEISHU_WEBHOOK"; fetched := [] |}
    | Some webhook =>
        match truthy (text_of (body req)) with
        | None => {| response := respond 400 "Invalid payload"; fetched := [] |}
        | Some text =>
            let init := {| init_method := "POST";
                           init_headers := [("Content-Type", "application/json")];
                           init_body := stringify (buildPayload text) |} in
            match fetch webhook init with
            | Rejected e =>
                {| response := Rejected e; fetched := [(webhook, init)] |}
            | Fulfilled upstream =>
                if negb (ok upstream) then
                  {| response := respond (up_status upstream) (up_text upstream);
                     fetched := [(webhook, init)] |}
                else
                  {| response := respond 200 "ok"; fetched := [(webhook, init)] |}
            end
        end
    end.

(** What the relay sends to the webhook for [text]. *)
Definition forwarded (text : string) : FetchInit :=
  {| init_method := "POST";
     init_headers := [("Content-Type", "application/json")];
     init_body := stringify (buildPayload text) |}.

Definition reply (code : Z) (text : string) : Handled :=
  {| response := respond code text; fetched := [] |}.

End Relay.

(** ** Definitions the statements use *)

Section Statements.
Context {N : Number}.
Local Open Scope js_scope.

(** [preferred] and [others] after their sort. *)
Definition sortedPreferred (data : option (list Tire)) (wetPref : WetPreference)
  (widthPref : WidthPreference) : list TireWithScore :=
  sort byScoreDesc (filter (hasPreferredWidth widthPref) (tiresWithScore wetPref data)).

Definition sortedOthers (data : option (list Tire)) (wetPref : WetPreference)
  (widthPref : WidthPreference) : list TireWithScore :=
  sort byScoreDesc
    (filter (fun t => negb (hasPreferredWidth widthPref t)) (tiresWithScore wetPref data)).

(** The weight table as the specification gives it: [(wg_weight, rr_weight)]. *)
Definition weight_table (wetPref : WetPreference) : num * num :=
  match wetPref with
  | Very => (lit 8 1, lit 2 1)
  | Normal => (lit 6 1, lit 4 1)
  | Not => (lit 35 2, lit 65 2)
  end.

(** The table of step 7 of the specification, row by row: the preference,
    the condition on [(wg, rr)], the explanation. *)
Definition reason_table : list (WetPreference * (num -> num -> bool) * string) :=
  [ (Very, fun wg _ => wg >=? lit 75 0,
     "湿地安全感优先，抓地力表现优异，适合多雨路况骑行"%string);
    (Very, fun _ _ => true,
     "湿地性能在可接受范围，综合表现较好"%string);
    (Not, fun _ rr => rr <=? lit 12 0,
     "效率与速度的最佳平衡，滚阻保持在低水平，适合竞速训练"%string);
    (Not, fun _ _ => true,
     "综合性能均衡，滚阻与抓地力兼顾"%string);
    (Normal, fun wg rr => (wg >=? lit 75 0) && (rr <=? lit 12 0),
     "湿地安全感与效率兼顾，全能型选手，适合日常训练与长途"%string);
    (Normal, fun wg _ => wg >=? lit 75 0,
     "湿地抓地出色，安全性更强，滚阻保持在可接受范围"%string);
    (Normal, fun _ rr => rr <=? lit 12 0,
     "滚阻表现优秀，骑行更省力，湿地性能在合理水平"%string);
    (Normal, fun _ _ => true,
     "综合性能均衡，湿地与效率表现稳定，适合日常通勤骑行"%string) ]%list.

Definition same_pref (a b : WetPreference) : bool :=
  match a, b with
  | Very, Very | Normal, Normal | Not, Not => true
  | _, _ => false
  end.

(** Top to bottom, the first row that matches wins. *)
Fixpoint first_match (rows : list (WetPreference * (num -> num -> bool) * string))
  (wetPref : WetPreference) (wg rr : num) : option string :=
  match rows with
  | [] => None
  | (p, cond, text) :: rows' =>
      if same_pref p wetPref && cond wg rr then Some text
      else first_match rows' wetPref wg rr
  end.



(** The comparisons of an instance are lawful on the numbers satisfying
    [ok]: a difference is positive exactly when its first term is the
    greater, and [<] is a strict weak order. *)
Record LawfulOrder (ok : num -> Prop) : Prop := {
  sub_positive : forall x y, ok x -> ok y -> (y - x >? lit 0 0) = (x <? y);
  lt_irrefl : forall x, ok x -> (x <? x) = false;
  lt_trans : forall x y z, ok x -> ok y -> ok z ->
             (x <? y) = true -> (y <? z) = true -> (x <? z) = true;
  lt_cotrans : forall x y z, ok x -> ok y -> ok z ->
               (x <? z) = true -> (x <? y) = true \/ (y <? z) = true
}.

(** Equal scores: neither is below the other. *)
Definition tied (x y : num) : bool := negb (x <? y) && negb (y <? x).


End Statements.

Arguments sub_positive {N ok} _ {x y}.
Arguments lt_irrefl {N ok} _ {x}.
Arguments lt_trans {N ok} _ {x y z}.
Arguments lt_cotrans {N ok} _ {x y z}.

(** The example of the specification: three candidates, [wetPref = not],
    [widthPref = narrow]. *)
Module SpecExample.
Section Data.
Context {N : Number}.

Definition candidate (name : string) (width wc we rr : Z) : Tire :=
  {| tire_id := name; brand := ""; model := "";
     width_spec_mm := Some width;
     wet_center := Some (lit wc 0); wet_edge := Some (lit we 0);
     rr_high_w := Some (lit rr 0);
     price := None; source_site := None |}.

Definition item1 : Tire := candidate "item1" 28 70 72 10.
Definition item2 : Tire := candidate "item2" 30 90 92 8.
Definition item3 : Tire := candidate "item3" 28 60 61 20.

Definition candidates : option (list Tire) := Some [item1; item2; item3].

Definition rows : Settled QueryResult :=
  Fulfilled {| data := candidates; error := None |}.

Definition start : PageState :=
  {| wetPref := Not; widthPref := W28; results := []; loading := false;
     showResults := false; feedback := None |}.

(** A provider that answers the lookup for [item3] with an error and the
    others with a text. *)
Definition failing_for_item3 : Supabase :=
  {| select_tires := rows;
     functions_invoke := fun t _ =>
       if String.eqb (tire_id (tire t)) "item3"
       then Fulfilled {| inv_data := None; inv_error := Some "FunctionsHttpError"%string |}
       else Fulfilled {| inv_data := Some "a fine tyre"%string; inv_error := None |} |}.

(** A provider whose lookup for [item3] throws. *)
Definition throwing_for_item3 : Supabase :=
  {| select_tires := rows;
     functions_invoke := fun t _ =>
       if String.eqb (tire_id (tire t)) "item3"
       then Rejected "Failed to fetch"
       else Fulfilled {| inv_data := Some "a fine tyre"%string; inv_error := None |} |}.

End Data.
End SpecExample.

(** ** Binary64 values

    Every finite binary64 number is a whole multiple of the least subnormal
    [2^-1074]; [value] is that multiple, with the infinities beyond all
    finite values.  It turns the comparisons of floats into comparisons of
    integers. *)

Section Binary64Values.
Local Open Scope Z_scope.
Local Notation "'emax'" := 1024%Z.
Local Notation "'emin'" := (-1074)%Z.

(** The magnitude of a finite float, in units of the least subnormal. *)
Definition magnitude (m : positive) (e : Z) : Z := Zpos m * 2 ^ (e - emin).

Definition infinite_magnitude : Z := 2 ^ (emax - emin).

Definition value (f : spec_float) : Z :=
  match f with
  | S754_zero _ => 0
  | S754_nan => 0
  | S754_infinity s => cond_Zopp s infinite_magnitude
  | S754_finite s m e => cond_Zopp s (magnitude m e)
  end.

Definition not_nan (f : spec_float) : Prop := f <> S754_nan.

(** The results a rounding can have: the sign is the one asked for. *)
Definition signed (s : bool) (f : spec_float) : Prop :=
  match f with
  | S754_zero s' | S754_infinity s' | S754_finite s' _ _ => s' = s
  | S754_nan => True
  end.

(** A positive or negative result that is not zero. *)
Definition nonzero (s : bool) (f : spec_float) : Prop :=
  match f with
  | S754_infinity s' | S754_finite s' _ _ => s' = s
  | _ => False
  end.

Definition pzero : spec_float := S754_zero false.

(** *** Rounding

    The exact product or sum of two finite floats is a whole multiple of
    [2^-2148]; in that unit, [rounded] is the float nearest to it. *)

(** Round to nearest, ties to even, of [P / 2^t]. *)
Definition nearest_even (P t : Z) : Z :=
  let q := P / 2 ^ t in
  let r := P mod 2 ^ t in
  if 2 * r <? 2 ^ t then q
  else if 2 ^ t <? 2 * r then q + 1
  else if Z.even q then q else q + 1.

(** The exponent of the last place of [P], in a format of 53 bits whose
    least exponent is [base]. *)
Definition last_place (base P : Z) : Z := Z.max (Z.log2 P + 1 - 53) base.

Definition rounded (base P : Z) : Z :=
  nearest_even P (last_place base P) * 2 ^ last_place base P.

(** After [k] shifts of [N]: the quotient, and the position of the remainder
    with respect to the half of [2^k]. *)
Definition shifted (N k : Z) (rec : shr_record) : Prop :=
  shr_m rec = N / 2 ^ k
  /\ match shr_r rec, shr_s rec with
     | false, false => N mod 2 ^ k = 0
     | false, true => 0 < 2 * (N mod 2 ^ k) < 2 ^ k
     | true, false => 2 * (N mod 2 ^ k) = 2 ^ k
     | true, true => 2 ^ k < 2 * (N mod 2 ^ k)
     end.

Definition unit_scale : Z := 2 ^ 1074.
Definition overflow : Z := 2 ^ 3172.

(** Rounding a signed exact value, given in units of [2^-2148]; beyond
    [overflow] the result is infinite. *)
Definition round_value (v : Z) : Z :=
  if v <? 0 then - Z.min (rounded 1074 (- v)) overflow
  else Z.min (rounded 1074 v) overflow.

Definition finite (f : spec_float) : Prop :=
  match f with
  | S754_zero _ | S754_finite _ _ _ => True
  | _ => False
  end.

(** A weight of the table: positive and at most one. *)
Definition weight (w : float) : Prop :=
  finite (Prim2SF w) /\ 0 < value (Prim2SF w) <= unit_scale.

(** The numeric fields a row brings are finite numbers, as JSON delivers
    them. *)
Definition finite_fields (t : @Tire Binary64.number) : Prop :=
  forall x, In (Some x) [wet_center t; wet_edge t; rr_high_w t] ->
            PrimFloat.is_finite x = true.

End Binary64Values.

(** ** The page: the other handlers, the effects and what is rendered *)

(** The string a preference is in the program: the members of the union
    types [WetPreference] and [WidthPreference]. *)
Definition wet_value (p : WetPreference) : string :=
  match p with Very => "very" | Normal => "normal" | Not => "not" end.

Definition width_value (w : WidthPreference) : string :=
  match w with W28 => "28" | Wider => "wider" end.

(** A whole number in a template literal: its decimal digits. *)
Definition number_text (z : Z) : string :=
  DecimalString.NilZero.string_of_int (Z.to_int z).

(** A value handed to [gtag] in the parameters of an event. *)
Inductive Param : Type :=
  | PString (s : string)
  | PNumber (z : Z)
  | PNull.

(** The argument of [toast]. *)
Record Toast : Type := {
  toast_title : option string;
  toast_description : string;
  toast_variant : option string;
  toast_duration : Z
}.

(** The object inserted into the [feedback] table. *)
Record FeedbackData : Type := {
  helpfulness : string;
  q1_importance : string;
  q2_width_pref : string;
  top1 : option string;
  top2 : option string;
  top3 : option string
}.

(** What a handler does besides setting the page state, in the order it
    does it. *)
Inductive Effect : Type :=
  | ScrollToTop
  | ShowToast (t : Toast)
  | Gtag (eventName : string) (params : list (string * Param))
  | ConsoleError (line : string)
  | InsertFeedback (row : FeedbackData)
  | ClipboardWrite (text : string)
  | AppendTextArea (value : string)
  | ExecCopy (successful : bool)
  | RemoveTextArea
  | ClearCopiedAfter (ms : Z).

(** What the handlers find in the browser: whether [window.gtag] is
    defined, how the insert into [feedback] settles (resolved, it carries
    [error], which may be [null]), how [navigator.clipboard.writeText]
    settles (rejected also stands for a missing [navigator.clipboard]), and
    what [document.execCommand('copy')] returns or throws.  [toast], the
    state setters, [gtag] and the other DOM calls return normally. *)
Record Browser : Type := {
  has_gtag : bool;
  insert_feedback : FeedbackData -> Settled (option string);
  clipboard_writeText : string -> Settled unit;
  execCommand_copy : Settled bool
}.

(** [if (typeof window !== 'undefined' && window.gtag) { window.gtag(...) }] *)
Definition report (env : Browser) (e : Effect) : list Effect :=
  if has_gtag env then [e] else [].

(** [`Q1:${wetPref} | Q2:${widthPref}`] *)
Definition event_label (wetPref : WetPreference) (widthPref : WidthPreference) : string :=
  ("Q1:" ++ wet_value wetPref ++ " | Q2:" ++ width_value widthPref)%string.

(** The page's [<title>] and the [content] of the three meta elements the
    page looks up; [None] when [querySelector] finds no such element. *)
Record Document : Type := {
  doc_title : string;
  meta_description : option string;
  og_title : option string;
  og_description : option string
}.

Definition default_title : string :=
  "公路车轮胎购买指南 - 基于测试数据的智能推荐工具 | Iron Legs".

Section Page.
Context {N : Number}.
Local Open Scope string_scope.

(** [`${tire.width_spec_mm}`]: the digits of the width, [null] for a null
    width. *)
Definition width_text (w : option Z) : string :=
  match w with Some z => number_text z | None => "null" end.

(** [`${tire.brand} ${tire.model} ${tire.width_spec_mm}mm`] *)
Definition tireName (t : TireWithScore) : string :=
  brand (tire t) ++ " " ++ model (tire t) ++ " "
    ++ width_text (width_spec_mm (tire t)) ++ "mm".

(** *** [handleReset] and [handleLogoClick] *)

Definition handleReset (st : PageState) : PageState * list Effect :=
  ({| wetPref := wetPref st; widthPref := widthPref st;
      results := []; loading := loading st;
      showResults := false; feedback := None |},
   [ScrollToTop]).

Definition handleLogoClick (st : PageState) : PageState * list Effect :=
  if showResults st then
    ({| wetPref := wetPref st; widthPref := widthPref st;
        results := []; loading := loading st;
        showResults := false; feedback := None |},
     [ScrollToTop])
  else (st, [ScrollToTop]).

(** *** [handleFeedback] *)

(** [results[k] ? `...` : null] *)
Definition top (results : list TireWithScore) (k : nat) : option string :=
  match nth_error results k with
  | Some t => Some (tireName t)
  | None => None
  end.

Definition feedbackData (st : PageState) (value : string) : FeedbackData :=
  {| helpfulness := value;
     q1_importance := wet_value (wetPref st);
     q2_width_pref := width_value (widthPref st);
     top1 := top (results st) 0;
     top2 := top (results st) 1;
     top3 := top (results st) 2 |}.

Definition feedback_eventName (value : string) : string :=
  if String.eqb value "helpful" then "feedback_helpful"
  else if String.eqb value "neutral" then "feedback_ok"
  else "feedback_not_helpful".

Definition param_of (x : option string) : Param :=
  match x with Some s => PString s | None => PNull end.

Definition feedback_event (st : PageState) (value : string) : Effect :=
  let feedbackData := feedbackData st value in
  Gtag (feedback_eventName value)
    [("event_category", PString "User Feedback");
     ("event_label", PString (event_label (wetPref st) (widthPref st)));
     ("q1_wet_preference", PString (wet_value (wetPref st)));
     ("q2_width_preference", PString (width_value (widthPref st)));
     ("top1_tire", param_of (top1 feedbackData));
     ("top2_tire", param_of (top2 feedbackData));
     ("top3_tire", param_of (top3 feedbackData))].

Definition thanks_toast : Toast :=
  {| toast_title := None; toast_description := "感谢反馈";
     toast_variant := None; toast_duration := 2000 |}.

Definition failed_toast : Toast :=
  {| toast_title := Some "提交失败"; toast_description := "提交失败请重试";
     toast_variant := Some "destructive"; toast_duration := 3000 |}.

Definition handleFeedback (env : Browser) (st : PageState) (value : string)
  : PageState * list Effect :=
  let feedbackData := feedbackData st value in
  ({| wetPref := wetPref st; widthPref := widthPref st;
      results := results st; loading := loading st;
      showResults := showResults st; feedback := Some value |},
   (report env (feedback_event st value)
    ++ InsertFeedback feedbackData
       :: match insert_feedback env feedbackData with
          | Fulfilled None => [ShowToast thanks_toast]
          | Fulfilled (Some _) | Rejected _ =>
              [ConsoleError "Error submitting feedback:"; ShowToast failed_toast]
          end)%list).

(** *** [handleCopy] *)

Definition copied_toast : Toast :=
  {| toast_title := None; toast_description := "已复制轮胎名称";
     toast_variant := None; toast_duration := 2000 |}.

Definition manual_toast (tireName : string) : Toast :=
  {| toast_title := Some "无法自动复制"; toast_description := tireName;
     toast_variant := None; toast_duration := 4000 |}.

Definition copy_event (t : TireWithScore) (fallback : bool) : Effect :=
  Gtag "copy_tire_name"
    ([("event_category", PString "User Action");
      ("event_label", PString (tireName t));
      ("tire_brand", PString (brand (tire t)));
      ("tire_model", PString (model (tire t)));
      ("tire_width", match width_spec_mm (tire t) with
                     | Some z => PNumber z
                     | None => PNull
                     end)]
     ++ (if fallback then [("copy_method", PString "fallback")] else []))%list.

(** [handleCopy]: the value of [copiedId] it leaves, given the one before,
    and its effects.  [ClipboardWrite] is a write that succeeded;
    [ExecCopy] carries what [execCommand] returned. *)
Definition handleCopy (env : Browser) (t : TireWithScore) (copiedId : option string)
  : option string * list Effect :=
  let tireName := tireName t in
  match clipboard_writeText env tireName with
  | Fulfilled _ =>
      (Some (tire_id (tire t)),
       ([ClipboardWrite tireName; ShowToast copied_toast; ClearCopiedAfter 2000]
        ++ report env (copy_event t false))%list)
  | Rejected _ =>
      match execCommand_copy env with
      | Fulfilled true =>
          (Some (tire_id (tire t)),
           ([AppendTextArea tireName; ExecCopy true; RemoveTextArea;
             ShowToast copied_toast; ClearCopiedAfter 2000]
            ++ report env (copy_event t true))%list)
      | Fulfilled false =>
          (copiedId,
           [AppendTextArea tireName; ExecCopy false; RemoveTextArea;
            ShowToast (manual_toast tireName)])
      | Rejected _ =>
          (copiedId, [AppendTextArea tireName; ShowToast (manual_toast tireName)])
      end
  end.

(** *** The effect that keeps the page's title and meta elements *)

(** [`${i + 1}. ${t.brand} ${t.model} ${t.width_spec_mm}mm`] *)
Definition seo_entry (i : nat) (t : TireWithScore) : string :=
  number_text (Z.of_nat i + 1) ++ ". " ++ tireName t.

(** [results.map((t, i) => ...)], from index [i] on. *)
Fixpoint seo_entries (i : nat) (results : list TireWithScore) : list string :=
  match results with
  | [] => []
  | t :: rest => seo_entry i t :: seo_entries (S i) rest
  end.

Definition seo_title (top1 : TireWithScore) : string :=
  brand (tire top1) ++ " " ++ model (tire top1) ++ " - 公路车轮胎推荐结果 | Iron Legs".

Definition seo_description (results : list TireWithScore) : string :=
  "为你推荐：" ++ String.concat "；" (seo_entries 0 results)
    ++ "。基于湿地抓地和滚阻性能的专业评测数据。".

(** [if (el) el.setAttribute('content', value)] *)
Definition set_content (el : option string) (value : string) : option string :=
  match el with Some _ => Some value | None => None end.

Definition updateSEO (st : PageState) (doc : Document) : Document :=
  match showResults st, results st with
  | true, top1 :: _ =>
      let title := seo_title top1 in
      let description := seo_description (results st) in
      {| doc_title := title;
         meta_description := set_content (meta_description doc) description;
         og_title := set_content (og_title doc) title;
         og_description := set_content (og_description doc) description |}
  | _, _ =>
      {| doc_title := default_title;
         meta_description := meta_description doc;
         og_title := og_title doc;
         og_description := og_description doc |}
  end.

(** *** What is rendered *)

(** [{results.length === 0 && (<Card>暂无符合条件的轮胎数据</Card>)}], inside
    the branch of [showResults]. *)
Definition emptyCard (st : PageState) : bool :=
  showResults st && (List.length (results st) =? 0)%nat.

(** *** The page as the user drives it

    [handleGenerate] is asynchronous: between its call and the moment its
    requests have settled the page stays live.  The call sets [loading] and
    clears [feedback]; the preferences it ranks with are those of the render
    in which the button was clicked. *)

Definition generate_begin (st : PageState) : PageState :=
  {| wetPref := wetPref st; widthPref := widthPref st;
     results := results st; loading := true;
     showResults := showResults st; feedback := None |}.

(** The rest of [handleGenerate], run on the state the page has by then,
    with the preferences captured at the click. *)
Definition generate_end (sb : Supabase) (captured : WetPreference * WidthPreference)
  (st : PageState) : PageState * list string :=
  match generate sb (fst captured) (snd captured) with
  | (Fulfilled explainedTop3, log) =>
      ({| wetPref := wetPref st; widthPref := widthPref st;
          results := explainedTop3; loading := false;
          showResults := true; feedback := feedback st |}, log)
  | (Rejected e, log) =>
      ({| wetPref := wetPref st; widthPref := widthPref st;
          results := results st; loading := false;
          showResults := showResults st; feedback := feedback st |},
       (log ++ ["Error fetching tires:"])%list)
  end.

(** The page state together with the request in flight, if any. *)
Record Live : Type := {
  page : PageState;
  pending : option (WetPreference * WidthPreference)
}.

(** What can happen to the page: a click on a control, or the settling of
    the request in flight, the backend having answered as [sb]. *)
Inductive Event : Type :=
  | PickWet (p : WetPreference)
  | PickWidth (w : WidthPreference)
  | ClickGenerate
  | RequestSettles (sb : Supabase)
  | ClickReset
  | ClickLogo
  | ClickFeedback (env : Browser) (value : string).

Definition set_wetPref (p : WetPreference) (st : PageState) : PageState :=
  {| wetPref := p; widthPref := widthPref st;
     results := results st; loading := loading st;
     showResults := showResults st; feedback := feedback st |}.

Definition set_widthPref (w : WidthPreference) (st : PageState) : PageState :=
  {| wetPref := wetPref st; widthPref := w;
     results := results st; loading := loading st;
     showResults := showResults st; feedback := feedback st |}.

(** One event.  [None] when the control is not there to be clicked: the
    preference buttons and the generate button are rendered in the input
    view only ([!showResults]), the generate button is disabled while
    [loading], the reset and the feedback buttons are rendered with the
    results only; the logo is always there. *)
Definition step (e : Event) (u : Live) : option Live :=
  let st := page u in
  match e with
  | PickWet p =>
      if showResults st then None
      else Some {| page := set_wetPref p st; pending := pending u |}
  | PickWidth w =>
      if showResults st then None
      else Some {| page := set_widthPref w st; pending := pending u |}
  | ClickGenerate =>
      if showResults st || loading st then None
      else Some {| page := generate_begin st;
                   pending := Some (wetPref st, widthPref st) |}
  | RequestSettles sb =>
      match pending u with
      | Some captured =>
          Some {| page := fst (generate_end sb captured st); pending := None |}
      | None => None
      end
  | ClickReset =>
      if showResults st
      then Some {| page := fst (handleReset st); pending := pending u |}
      else None
  | ClickLogo => Some {| page := fst (handleLogoClick st); pending := pending u |}
  | ClickFeedback env value =>
      if showResults st
      then Some {| page := fst (handleFeedback env st value); pending := pending u |}
      else None
  end.

(** A run of events from [u]; [None] as soon as one of them is not
    possible. *)
Fixpoint run (es : list Event) (u : Live) : option Live :=
  match es with
  | [] => Some u
  | e :: es' =>
      match step e u with
      | Some u' => run es' u'
      | None => None
      end
  end.

(** The page as [useState] initialises it. *)
Definition initial : Live :=
  {| page := {| wetPref := Normal; widthPref := W28; results := [];
                loading := false; showResults := false; feedback := None |};
     pending := None |}.

(** *** Definitions the statements about the page use *)

(** The toasts among the effects, in order. *)
Definition toasts (effects : list Effect) : list Toast :=
  flat_map (fun e => match e with ShowToast t => [t] | _ => [] end) effects.

(** The rows inserted into [feedback]. *)
Definition inserted (effects : list Effect) : list FeedbackData :=
  flat_map (fun e => match e with InsertFeedback row => [row] | _ => [] end) effects.

(** The lines written with [console.error]. *)
Definition logged (effects : list Effect) : list string :=
  flat_map (fun e => match e with ConsoleError line => [line] | _ => [] end) effects.

(** The events reported to analytics. *)
Definition reported (effects : list Effect) : list Effect :=
  filter (fun e => match e with Gtag _ _ => true | _ => false end) effects.

(** The delays after which [copiedId] is cleared. *)
Definition timers (effects : list Effect) : list Z :=
  flat_map (fun e => match e with ClearCopiedAfter ms => [ms] | _ => [] end) effects.

(** What the effects put on the clipboard: the text of a successful write,
    or the content of the text area a successful [execCommand] copied. *)
Fixpoint on_clipboard (area : option string) (effects : list Effect) : option string :=
  match effects with
  | [] => None
  | ClipboardWrite text :: _ => Some text
  | AppendTextArea value :: rest => on_clipboard (Some value) rest
  | ExecCopy true :: _ => area
  | _ :: rest => on_clipboard area rest
  end.

(** The text areas the effects leave in the document. *)
Fixpoint textareas (left : list string) (effects : list Effect) : list string :=
  match effects with
  | [] => left
  | AppendTextArea value :: rest => textareas (value :: left) rest
  | RemoveTextArea :: rest => textareas (tl left) rest
  | _ :: rest => textareas left rest
  end.

(** The state of the page hangs together: [loading] is set exactly while a
    request is in flight, and then the input view is shown; the input view
    holds no results and no feedback; and there are never more than three
    results. *)
Definition consistent (u : Live) : Prop :=
  (loading (page u) = true <-> pending u <> None)
  /\ (pending u <> None -> showResults (page u) = false)
  /\ (showResults (page u) = false ->
      results (page u) = [] /\ feedback (page u) = None)
  /\ (List.length (results (page u)) <= 3)%nat.

End Page.

(** Rows, backends and a browser to run the page on. *)
Module PageExample.
Import SpecExample.
Section Data.
Context {N : Number}.

(** The rows of the example, fetched in another order. *)
Definition reordered : option (list Tire) := Some [item3; item1; item2].

(** A row whose rolling resistance was not measured. *)
Definition unmeasured : Tire :=
  {| tire_id := "item4"; brand := ""; model := "";
     width_spec_mm := Some 28%Z;
     wet_center := Some (lit 80 0); wet_edge := Some (lit 81 0);
     rr_high_w := None;
     price := None; source_site := None |}.

(** A backend that has only that row. *)
Definition nothing_eligible : Supabase :=
  {| select_tires := Fulfilled {| data := Some [unmeasured]; error := None |};
     functions_invoke := fun _ _ =>
       Fulfilled {| inv_data := Some "a fine tyre"%string; inv_error := None |} |}.

(** A backend that cannot be reached. *)
Definition unreachable : Supabase :=
  {| select_tires := Rejected "Failed to fetch";
     functions_invoke := fun _ _ => Rejected "Failed to fetch" |}.

(** A browser with analytics, where the insert succeeds, the clipboard is
    not available and [execCommand] works. *)
Definition browser : Browser :=
  {| has_gtag := true;
     insert_feedback := fun _ => Fulfilled None;
     clipboard_writeText := fun _ => Rejected "NotAllowedError";
     execCommand_copy := Fulfilled true |}.

End Data.
End PageExample.

(** * Properties *)

(** ** Literals *)

(** The binary64 literals of the program are the doubles nearest to their
    decimals. *)
Example literals_binary64 :
  Binary64.literal 8 1 = 0x1.999999999999ap-1%float
  /\ Binary64.literal 2 1 = 0x1.999999999999ap-3%float
  /\ Binary64.literal 6 1 = 0x1.3333333333333p-1%float
  /\ Binary64.literal 4 1 = 0x1.999999999999ap-2%float
  /\ Binary64.literal 35 2 = 0x1.6666666666666p-2%float
  /\ Binary64.literal 65 2 = 0x1.4cccccccccccdp-1%float
  /\ Binary64.literal 30 0 = 30%float
  /\ Binary64.literal 75 0 = 75%float
  /\ Binary64.literal 12 0 = 12%float
  /\ Binary64.literal 0 0 = 0%float.
Proof. repeat split. Qed.

Example literals_exact :
  (Exact.literal 35 2 == 35 / 100)%Q /\ (Exact.literal 30 0 == 30)%Q.
Proof. split; reflexivity. Qed.

(** ** Lists *)

Section ListFacts.
Context {A : Type}.

Lemma skipn_nth_error (l : list A) (i : nat) (x : A) :
  nth_error l i = Some x -> skipn i l = x :: skipn (S i) l.
Proof.
  revert i; induction l as [|y l IH]; intros [|i] H; simpl in *; try discriminate.
  - now inversion H.
  - now apply IH.
Qed.

Lemma filter_split_perm (f : A -> bool) (l : list A) :
  Permutation (filter f l ++ filter (fun x => negb (f x)) l) l.
Proof.
  induction l as [|x l IH]; simpl; [constructor|].
  destruct (f x); simpl.
  - now constructor.
  - now apply Permutation_sym, Permutation_cons_app, Permutation_sym.
Qed.

Lemma firstn_app_rest (n : nat) (l : list A) : exists rest, firstn n l ++ rest = l.
Proof. exists (skipn n l). apply firstn_skipn. Qed.

Lemma nth_error_firstn_inv (n i : nat) (l : list A) (x : A) :
  nth_error (firstn n l) i = Some x -> nth_error l i = Some x.
Proof.
  revert i l; induction n as [|n IH]; intros i l H.
  - destruct i; discriminate.
  - destruct l as [|y l]; [destruct i; discriminate|].
    destruct i as [|i]; simpl in *; auto.
Qed.

End ListFacts.

(** ** The sort and the merge loop *)

Section RankerFacts.
Context {N : Number}.
Local Open Scope js_scope.

Lemma sort_insert_perm {A : Type} (c : A -> A -> num) (x : A) (l : list A) :
  Permutation (sort_insert c x l) (x :: l).
Proof.
  induction l as [|y l IH]; simpl; [reflexivity|].
  destruct (c x y >? lit 0 0); [|reflexivity].
  rewrite IH. apply perm_swap.
Qed.

Lemma sort_perm {A : Type} (c : A -> A -> num) (l : list A) :
  Permutation (sort c l) l.
Proof.
  induction l as [|x l IH]; simpl; [constructor|].
  rewrite sort_insert_perm. now constructor.
Qed.

(** The loop appends to [top3] the next items of [preferred], then of
    [others], until [top3] holds three or both are used up. *)
Lemma merge_loop_spec (fuel : nat) (P O acc : list TireWithScore) (i j : nat) :
  merge_loop fuel P O acc i j
  = acc ++ firstn (Nat.min fuel (3 - List.length acc)) (skipn i P ++ skipn j O).
Proof.
  revert acc i j; induction fuel as [|fuel IH]; intros acc i j; cbn [merge_loop].
  - now rewrite Nat.min_0_l, app_nil_r.
  - destruct (List.length acc <? 3)%nat eqn:Hlen.
    + apply Nat.ltb_lt in Hlen.
      assert (Hmin : forall x, Nat.min (S fuel) (3 - List.length acc)
                     = S (Nat.min fuel (3 - List.length (acc ++ [x])))).
      { intros x. rewrite length_app; cbn [List.length]. lia. }
      destruct (i <? List.length P)%nat eqn:Hi.
      * apply Nat.ltb_lt in Hi.
        destruct (nth_error P i) as [x|] eqn:Hx;
          [|apply nth_error_None in Hx; lia].
        rewrite IH, (skipn_nth_error _ _ Hx), (Hmin x).
        cbn [app firstn]. now rewrite <- app_assoc.
      * apply Nat.ltb_ge in Hi. rewrite (skipn_all2 P Hi); cbn [app].
        destruct (j <? List.length O)%nat eqn:Hj.
        -- apply Nat.ltb_lt in Hj.
           destruct (nth_error O j) as [x|] eqn:Hx;
             [|apply nth_error_None in Hx; lia].
           rewrite IH, (skipn_nth_error _ _ Hx), (skipn_all2 P Hi), (Hmin x).
           cbn [app firstn]. now rewrite <- app_assoc.
        -- apply Nat.ltb_ge in Hj. rewrite (skipn_all2 O Hj).
           now rewrite firstn_nil, app_nil_r.
    + apply Nat.ltb_ge in Hlen.
      replace (3 - List.length acc)%nat with 0%nat by lia.
      now rewrite Nat.min_0_r, app_nil_r.
Qed.


Lemma rank_firstn data wetPref widthPref :
  rank data wetPref widthPref
  = firstn 3 (sortedPreferred data wetPref widthPref ++ sortedOthers data wetPref widthPref).
Proof. unfold rank. now rewrite merge_loop_spec. Qed.

Lemma merged_perm data wetPref widthPref :
  Permutation (sortedPreferred data wetPref widthPref ++ sortedOthers data wetPref widthPref)
              (tiresWithScore wetPref data).
Proof.
  unfold sortedPreferred, sortedOthers. rewrite !sort_perm. apply filter_split_perm.
Qed.

Lemma rank_incl data wetPref widthPref (s : TireWithScore) :
  In s (rank data wetPref widthPref) -> In s (tiresWithScore wetPref data).
Proof.
  rewrite rank_firstn. intros H.
  apply (Permutation_in _ (merged_perm data wetPref widthPref)).
  destruct (firstn_app_rest 3 (sortedPreferred data wetPref widthPref
                                 ++ sortedOthers data wetPref widthPref)) as [rest E].
  rewrite <- E. apply in_or_app. now left.
Qed.

Lemma WEIGHT_CONFIG_table (wetPref : WetPreference) :
  (w_wg (WEIGHT_CONFIG wetPref), w_rr (WEIGHT_CONFIG wetPref)) = weight_table wetPref.
Proof. now destruct wetPref. Qed.

Lemma withScore_eligible (w : Weights) (t : Tire) (wc we r : num) :
  wet_center t = Some wc -> wet_edge t = Some we -> rr_high_w t = Some r ->
  withScore w t
  = {| tire := t;
       score := Math_min wc we * w_wg w + (lit 30 0 - r) * w_rr w;
       wg := Math_min wc we; rr := r; explanation := "" |}.
Proof. intros H1 H2 H3. unfold withScore, score_of. now rewrite H1, H2, H3. Qed.

(** C1.  The scored candidates are exactly the fetched rows whose
    [wet_center], [wet_edge] and [rr_high_w] are all non-null, each with
    [score = min(wet_center, wet_edge) * wg_weight + (30 - rr_high_w) * rr_weight],
    the weights being those of the table for [wetPref]; the items [rank]
    returns carry that score. *)
Theorem score_formula data wetPref widthPref :
  let wg_weight := fst (weight_table wetPref) in
  let rr_weight := snd (weight_table wetPref) in
  (forall t wc we r,
      In t (or_empty data) ->
      wet_center t = Some wc -> wet_edge t = Some we -> rr_high_w t = Some r ->
      In {| tire := t;
            score := Math_min wc we * wg_weight + (lit 30 0 - r) * rr_weight;
            wg := Math_min wc we; rr := r; explanation := "" |}
         (tiresWithScore wetPref data))
  /\ (forall s, In s (tiresWithScore wetPref data) \/ In s (rank data wetPref widthPref) ->
        exists wc we r,
          wet_center (tire s) = Some wc /\ wet_edge (tire s) = Some we
          /\ rr_high_w (tire s) = Some r
          /\ score s = Math_min wc we * wg_weight + (lit 30 0 - r) * rr_weight).
Proof.
  intros wg_weight rr_weight.
  assert (Ew : wg_weight = w_wg (WEIGHT_CONFIG wetPref)
               /\ rr_weight = w_rr (WEIGHT_CONFIG wetPref)).
  { unfold wg_weight, rr_weight. now rewrite <- WEIGHT_CONFIG_table. }
  destruct Ew as [-> ->]. split.
  - intros t wc we r Hin H1 H2 H3.
    rewrite <- (withScore_eligible _ _ H1 H2 H3).
    unfold tiresWithScore. apply in_map. unfold validTires.
    apply filter_In. split; [exact Hin|].
    unfold eligible. now rewrite H1, H2, H3.
  - intros s Hs.
    assert (Hin : In s (tiresWithScore wetPref data))
      by (destruct Hs as [Hs|Hs]; [exact Hs | exact (rank_incl _ _ _ _ Hs)]).
    unfold tiresWithScore in Hin. apply in_map_iff in Hin.
    destruct Hin as (t & <- & Ht). unfold validTires in Ht.
    apply filter_In in Ht. destruct Ht as [_ He]. unfold eligible in He.
    destruct (wet_center t) as [wc|] eqn:H1; [|discriminate].
    destruct (wet_edge t) as [we|] eqn:H2; [|discriminate].
    destruct (rr_high_w t) as [r|] eqn:H3; [|discriminate].
    exists wc, we, r. rewrite (withScore_eligible _ _ H1 H2 H3). simpl. auto.
Qed.

(** C5.  The fallback explanation depends on [(wg, rr, wetPref)] only, and
    it is the explanation of the first matching row of the table. *)
Theorem generateReason_table :
  (forall t1 t2 wetPref, wg t1 = wg t2 -> rr t1 = rr t2 ->
     generateReason t1 wetPref = generateReason t2 wetPref)
  /\ (forall t wetPref,
        first_match reason_table wetPref (wg t) (rr t) = Some (generateReason t wetPref)).
Proof.
  split.
  - intros t1 t2 wetPref Hwg Hrr. unfold generateReason. now rewrite Hwg, Hrr.
  - intros t wetPref. unfold generateReason.
    destruct wetPref; cbn [first_match reason_table same_pref andb];
      destruct (wg t >=? lit 75 0), (rr t <=? lit 12 0); reflexivity.
Qed.

Lemma tire_withScore (w : Weights) (l : list Tire) : map tire (map (withScore w) l) = l.
Proof. rewrite map_map. simpl. apply map_id. Qed.

Lemma rank_tires_perm data wetPref widthPref :
  exists rest, Permutation (map tire (rank data wetPref widthPref) ++ rest) (validTires data).
Proof.
  exists (map tire (skipn 3 (sortedPreferred data wetPref widthPref
                              ++ sortedOthers data wetPref widthPref))).
  rewrite rank_firstn, <- map_app, firstn_skipn.
  rewrite (Permutation_map tire (merged_perm data wetPref widthPref)).
  unfold tiresWithScore. now rewrite tire_withScore.
Qed.

Lemma eligible_fields (t : Tire) :
  eligible t = true <->
  wet_center t <> None /\ wet_edge t <> None /\ rr_high_w t <> None.
Proof.
  unfold eligible.
  destruct (wet_center t), (wet_edge t), (rr_high_w t); simpl;
    (split; [intros H; try discriminate; repeat split; discriminate
            | intros (H1 & H2 & H3); try reflexivity; exfalso; auto]).
Qed.

Lemma rank_tire_valid data wetPref widthPref (s : TireWithScore) :
  In s (rank data wetPref widthPref) -> In (tire s) (validTires data).
Proof.
  intros H. destruct (rank_tires_perm data wetPref widthPref) as [rest HP].
  apply (Permutation_in _ HP), in_or_app. left. now apply in_map.
Qed.

(** C4.  [rank] returns at most three items, and every returned item is
    eligible: it is one of the fetched rows and its [wet_center], [wet_edge]
    and [rr_high_w] are all non-null; a fetched row with one of them null is
    never the row of a returned item. *)
Theorem rank_at_most_three_all_eligible data wetPref widthPref :
  (List.length (rank data wetPref widthPref) <= 3)%nat
  /\ (forall s, In s (rank data wetPref widthPref) ->
        In (tire s) (or_empty data)
        /\ wet_center (tire s) <> None
        /\ wet_edge (tire s) <> None
        /\ rr_high_w (tire s) <> None)
  /\ (forall t, wet_center t = None \/ wet_edge t = None \/ rr_high_w t = None ->
        ~ In t (map tire (rank data wetPref widthPref))).
Proof.
  assert (Hel : forall s, In s (rank data wetPref widthPref) ->
                  In (tire s) (or_empty data)
                  /\ wet_center (tire s) <> None
                  /\ wet_edge (tire s) <> None
                  /\ rr_high_w (tire s) <> None).
  { intros s Hs. apply rank_tire_valid in Hs. unfold validTires in Hs.
    apply filter_In in Hs. destruct Hs as [Hin He].
    split; [exact Hin|]. now apply eligible_fields. }
  split; [|split].
  - rewrite rank_firstn. apply firstn_le_length.
  - exact Hel.
  - intros t Hnull Hin. apply in_map_iff in Hin. destruct Hin as (s & <- & Hs).
    destruct (Hel s Hs) as (_ & H1 & H2 & H3).
    destruct Hnull as [E | [E | E]]; auto.
Qed.

(** Rows with distinct keys keep distinct keys when some are dropped. *)
Lemma distinct_keys_filter {Row Key : Type} (key : Row -> Key) (keep : Row -> bool)
  (rows : list Row) :
  NoDup (map key rows) -> NoDup (map key (filter keep rows)).
Proof.
  induction rows as [|r rows IH]; simpl; intros Hnd; [constructor|].
  apply NoDup_cons_iff in Hnd. destruct Hnd as [Hr Hrows].
  destruct (keep r); simpl; [|now apply IH].
  constructor; [|now apply IH].
  rewrite in_map_iff in *. intros (r' & E & Hin).
  apply Hr. exists r'. apply filter_In in Hin. tauto.
Qed.

(** C10.  [rank] returns exactly [min(3, number of eligible rows)] items, and
    they are distinct rows: the rows of the result, with some rest, are a
    rearrangement of the eligible rows, so that no row is returned more often
    than it was fetched; when the fetched rows have distinct identifiers, so
    have the returned items. *)
Theorem rank_length_and_distinct data wetPref widthPref :
  List.length (rank data wetPref widthPref)
  = Nat.min 3 (List.length (filter eligible (or_empty data)))
  /\ (exists rest,
        Permutation (map tire (rank data wetPref widthPref) ++ rest)
                    (filter eligible (or_empty data)))
  /\ (NoDup (map tire_id (or_empty data)) ->
      NoDup (map (fun s => tire_id (tire s)) (rank data wetPref widthPref))).
Proof.
  split; [|split].
  - rewrite rank_firstn, length_firstn.
    rewrite (Permutation_length (merged_perm data wetPref widthPref)).
    unfold tiresWithScore, validTires. now rewrite length_map.
  - apply rank_tires_perm.
  - intros Hnd. destruct (rank_tires_perm data wetPref widthPref) as [rest HP].
    apply (distinct_keys_filter tire_id eligible) in Hnd.
    apply (Permutation_map tire_id), Permutation_sym in HP.
    apply (Permutation_NoDup HP) in Hnd.
    rewrite map_app in Hnd. apply NoDup_app_remove_r in Hnd.
    now rewrite map_map in Hnd.
Qed.

Lemma hasPreferredWidth_spec (widthPref : WidthPreference) (s : TireWithScore) :
  hasPreferredWidth widthPref s = true <->
  match widthPref with
  | W28 => width_spec_mm (tire s) = Some 28%Z
  | Wider => width_spec_mm (tire s) = Some 30%Z \/ width_spec_mm (tire s) = Some 32%Z
  end.
Proof.
  unfold hasPreferredWidth, includes, or_zero.
  destruct widthPref, (width_spec_mm (tire s)) as [z|]; simpl;
    rewrite ?orb_false_r, ?orb_true_iff, ?Z.eqb_eq;
    split; intros H;
    repeat match goal with
           | H : _ \/ _ |- _ => destruct H
           | H : Some _ = Some _ |- _ => inversion H; clear H
           | H : None = Some _ |- _ => discriminate H
           end; subst; auto; try discriminate; try lia.
Qed.

Lemma in_sortedPreferred data wetPref widthPref (s : TireWithScore) :
  In s (sortedPreferred data wetPref widthPref) ->
  hasPreferredWidth widthPref s = true.
Proof.
  unfold sortedPreferred. intros H.
  apply (Permutation_in _ (sort_perm _ _)) in H. now apply filter_In in H.
Qed.

Lemma in_sortedOthers data wetPref widthPref (s : TireWithScore) :
  In s (sortedOthers data wetPref widthPref) ->
  hasPreferredWidth widthPref s = false.
Proof.
  unfold sortedOthers. intros H.
  apply (Permutation_in _ (sort_perm _ _)) in H. apply filter_In in H.
  now apply negb_true_iff.
Qed.

(** C2.  The scored candidates are split by width: [preferred] holds those
    whose width is 28 (narrow), or 30 or 32 (wide), and [others] the rest; a
    missing width is in neither set.  In the returned list every
    preferred-width item stands before every other item, whatever their
    scores. *)
Theorem width_dominates_score data wetPref widthPref :
  (forall s, hasPreferredWidth widthPref s = true <->
     match widthPref with
     | W28 => width_spec_mm (tire s) = Some 28%Z
     | Wider => width_spec_mm (tire s) = Some 30%Z \/ width_spec_mm (tire s) = Some 32%Z
     end)
  /\ (forall s, width_spec_mm (tire s) = None -> hasPreferredWidth widthPref s = false)
  /\ Permutation
       (filter (hasPreferredWidth widthPref) (tiresWithScore wetPref data)
        ++ filter (fun t => negb (hasPreferredWidth widthPref t)) (tiresWithScore wetPref data))
       (tiresWithScore wetPref data)
  /\ (forall i j a b,
        nth_error (rank data wetPref widthPref) i = Some a ->
        nth_error (rank data wetPref widthPref) j = Some b ->
        hasPreferredWidth widthPref a = true ->
        hasPreferredWidth widthPref b = false ->
        (i < j)%nat).
Proof.
  split; [|split; [|split]].
  - intros s. apply hasPreferredWidth_spec.
  - intros s Hw. unfold hasPreferredWidth. rewrite Hw. now destruct widthPref.
  - apply filter_split_perm.
  - intros i j a b Ha Hb Pa Pb. rewrite rank_firstn in Ha, Hb.
    apply nth_error_firstn_inv in Ha, Hb.
    set (SP := sortedPreferred data wetPref widthPref) in *.
    set (SO := sortedOthers data wetPref widthPref) in *.
    destruct (Nat.lt_ge_cases i (List.length SP)) as [Hi|Hi].
    + destruct (Nat.lt_ge_cases j (List.length SP)) as [Hj|Hj]; [|lia].
      rewrite nth_error_app1 in Hb by exact Hj.
      apply nth_error_In, in_sortedPreferred in Hb. congruence.
    + rewrite nth_error_app2 in Ha by exact Hi.
      apply nth_error_In, in_sortedOthers in Ha. congruence.
Qed.

(** ** Explanations *)


Lemma Promise_all_rejected {A : Type} (ps : list (Settled A)) (e : string) :
  In (Rejected e) ps -> exists e', Promise_all ps = Rejected e'.
Proof.
  induction ps as [|p ps IH]; simpl; [contradiction|].
  intros [-> | Hin]; [now exists e|].
  destruct p as [a|e0]; [|now exists e0].
  destruct (IH Hin) as [e' ->]. now exists e'.
Qed.




(** A lookup that throws is not caught by its callback, whether the call
    rejects or resolves with neither an error nor a body to read the
    explanation from: the whole batch rejects, and the page keeps what it
    showed before. *)
Lemma lookup_exception_fails_batch sb st q t :
  select_tires sb = Fulfilled q -> error q = None ->
  In t (rank (data q) (wetPref st) (widthPref st)) ->
  (exists e, functions_invoke sb t (wetPref st) = Rejected e)
  \/ functions_invoke sb t (wetPref st)
     = Fulfilled {| inv_data := None; inv_error := None |} ->
  results (fst (handleGenerate sb st)) = results st
  /\ showResults (fst (handleGenerate sb st)) = showResults st
  /\ loading (fst (handleGenerate sb st)) = false.
Proof.
  intros Hq He Hin Hr. unfold handleGenerate, generate. rewrite Hq, He.
  assert (Hrej : exists e, fst (explainTire sb (wetPref st) t) = Rejected e).
  { unfold explainTire. destruct Hr as [[e Hr] | Hr]; rewrite Hr; cbn; eauto. }
  destruct Hrej as [e Hrej].
  destruct (@Promise_all_rejected _
              (map fst (map (explainTire sb (wetPref st))
                          (rank (data q) (wetPref st) (widthPref st)))) e) as [e' ->].
  - rewrite map_map. apply in_map_iff. exists t. split; [exact Hrej | exact Hin].
  - simpl. auto.
Qed.

End RankerFacts.

(** ** The order of scores *)

Section ListOrder.
Context {A : Type}.


Lemma filter_none (p : A -> bool) (l : list A) :
  (forall x, In x l -> p x = false) -> filter p l = [].
Proof.
  induction l as [|x l IH]; intros H; [reflexivity|]. cbn [filter].
  rewrite (H x (or_introl eq_refl)). apply IH. intros; apply H; now right.
Qed.

Lemma filter_all (p : A -> bool) (l : list A) :
  (forall x, In x l -> p x = true) -> filter p l = l.
Proof.
  induction l as [|x l IH]; intros H; [reflexivity|]. cbn [filter].
  rewrite (H x (or_introl eq_refl)). f_equal. apply IH. intros; apply H; now right.
Qed.




End ListOrder.

Section SortFacts.
Context {N : Number} (ok : num -> Prop) (L : LawfulOrder ok).
Local Open Scope js_scope.

(** [u] is not below [v]: the order a descending sort establishes. *)
Let notBelow (u v : TireWithScore) : Prop := (score u <? score v) = false.
Let okScore (s : TireWithScore) : Prop := ok (score s).

Lemma lt_asym (x y : num) : ok x -> ok y -> (x <? y) = true -> (y <? x) = false.
Proof.
  intros Hx Hy H. destruct (y <? x) eqn:E; [|reflexivity].
  rewrite <- (lt_irrefl L Hx). symmetry. exact (lt_trans L Hx Hy Hx H E).
Qed.

Lemma moved_behind (x y : TireWithScore) :
  okScore x -> okScore y ->
  (byScoreDesc x y >? lit 0 0) = (score x <? score y).
Proof. intros Hx Hy. unfold byScoreDesc. now apply (sub_positive L). Qed.

Lemma sort_insert_sorted (x : TireWithScore) (S : list TireWithScore) :
  okScore x -> Forall okScore S ->
  StronglySorted notBelow S -> StronglySorted notBelow (sort_insert byScoreDesc x S).
Proof.
  intros Hx Hok Hs. induction Hs as [|y S Hs IH Hy]; cbn [sort_insert].
  - repeat constructor.
  - inversion Hok as [|? ? Hoky HokS]; subst.
    rewrite (moved_behind Hx Hoky). destruct (score x <? score y) eqn:E.
    + constructor; [now apply IH|].
      apply (Permutation_Forall (Permutation_sym (sort_insert_perm _ _ _))).
      constructor; [|exact Hy]. now apply lt_asym.
    + constructor; [now constructor|]. constructor; [exact E|].
      rewrite Forall_forall in Hy, HokS |- *. intros z Hz.
      destruct (score x <? score z) eqn:Ez; [exfalso | exact Ez].
      destruct (lt_cotrans L Hx Hoky (HokS z Hz) Ez) as [H|H];
        [congruence | rewrite (Hy z Hz) in H; discriminate].
Qed.

Lemma sort_sorted (l : list TireWithScore) :
  Forall okScore l -> StronglySorted notBelow (sort byScoreDesc l).
Proof.
  induction 1 as [|x l Hx Hl IH]; cbn [sort fold_right]; [constructor|].
  apply sort_insert_sorted; auto.
  apply (Permutation_Forall (Permutation_sym (sort_perm _ _))). exact Hl.
Qed.





End SortFacts.

(** ** Binary64: the order of floats *)

Unset Implicit Arguments.

Section Binary64Order.
Local Open Scope Z_scope.
Local Notation "'prec'" := 53%Z.
Local Notation "'emax'" := 1024%Z.
Local Notation "'emin'" := (-1074)%Z.

Lemma digits2_size (m : positive) : digits2_pos m = Pos.size m.
Proof. induction m; simpl; congruence. Qed.

Lemma digits_bounds (m : positive) :
  2 ^ (Zpos (digits2_pos m) - 1) <= Zpos m < 2 ^ Zpos (digits2_pos m).
Proof.
  rewrite digits2_size. split.
  - pose proof (Pos.size_le m) as H.
    assert (E : Zpos (2 ^ Pos.size m)%positive = 2 ^ Zpos (Pos.size m)) by now rewrite Pos2Z.inj_pow.
    assert (2 ^ Zpos (Pos.size m) = 2 * 2 ^ (Zpos (Pos.size m) - 1)).
    { rewrite <- Z.pow_succ_r by lia. f_equal. lia. }
    lia.
  - pose proof (Pos.size_gt m) as H.
    assert (E : Zpos (2 ^ Pos.size m)%positive = 2 ^ Zpos (Pos.size m)) by now rewrite Pos2Z.inj_pow.
    lia.
Qed.

Lemma bounded_facts (m : positive) (e : Z) :
  bounded prec emax m e = true ->
  emin <= e <= emax - prec /\ Zpos m < 2 ^ prec /\ (emin < e -> 2 ^ (prec - 1) <= Zpos m).
Proof.
  unfold bounded, canonical_mantissa, fexp, SpecFloat.emin.
  rewrite andb_true_iff, Z.eqb_eq, Z.leb_le. intros [Hc He].
  pose proof (digits_bounds m) as [Hlo Hhi].
  set (d := Zpos (digits2_pos m)) in *.
  split; [lia|]. split.
  - apply Z.lt_le_trans with (1 := Hhi). apply Z.pow_le_mono_r; lia.
  - intros Hlt. assert (d = prec) by lia. now replace (prec - 1) with (d - 1) by lia.
Qed.

Lemma magnitude_pos (m : positive) (e : Z) : emin <= e -> 0 < magnitude m e.
Proof.
  intros He. unfold magnitude. apply Z.mul_pos_pos; [lia|].
  apply Z.pow_pos_nonneg; lia.
Qed.

Lemma magnitude_lt_infinite (m : positive) (e : Z) :
  bounded prec emax m e = true -> magnitude m e < infinite_magnitude.
Proof.
  intros Hb. apply bounded_facts in Hb. destruct Hb as ([He1 He2] & Hm & _).
  unfold magnitude, infinite_magnitude.
  apply Z.lt_le_trans with (2 ^ prec * 2 ^ (e - emin)).
  - apply Z.mul_lt_mono_pos_r; [apply Z.pow_pos_nonneg; lia | exact Hm].
  - rewrite <- Z.pow_add_r by lia. apply Z.pow_le_mono_r; lia.
Qed.

Lemma magnitude_lt_exp (m1 m2 : positive) (e1 e2 : Z) :
  bounded prec emax m1 e1 = true -> bounded prec emax m2 e2 = true ->
  e1 < e2 -> magnitude m1 e1 < magnitude m2 e2.
Proof.
  intros H1 H2 Hlt. apply bounded_facts in H1, H2.
  destruct H1 as ([He1 _] & Hm1 & _), H2 as ([He2 _] & _ & Hm2).
  specialize (Hm2 ltac:(lia)). unfold magnitude.
  apply Z.lt_le_trans with (2 ^ prec * 2 ^ (e1 - emin)).
  - apply Z.mul_lt_mono_pos_r; [apply Z.pow_pos_nonneg; lia | exact Hm1].
  - apply Z.le_trans with (2 ^ (prec - 1) * 2 ^ (e2 - emin)).
    + rewrite <- !Z.pow_add_r by lia. apply Z.pow_le_mono_r; lia.
    + apply Z.mul_le_mono_nonneg_r; [apply Z.pow_nonneg; lia | exact Hm2].
Qed.

Lemma magnitude_compare (m1 m2 : positive) (e : Z) :
  emin <= e -> (magnitude m1 e ?= magnitude m2 e) = (m1 ?= m2)%positive.
Proof.
  intros He. unfold magnitude.
  assert (Hp : 0 < 2 ^ (e - emin)) by (apply Z.pow_pos_nonneg; lia).
  destruct (Pos.compare_spec m1 m2) as [E|E|E].
  - subst. apply Z.compare_refl.
  - apply Z.compare_lt_iff, Z.mul_lt_mono_pos_r; [exact Hp | lia].
  - apply Z.compare_gt_iff, Z.mul_lt_mono_pos_r; [exact Hp | lia].
Qed.

Lemma compare_value (x y : spec_float) :
  valid_binary x = true -> valid_binary y = true -> not_nan x -> not_nan y ->
  SFcompare x y = Some (value x ?= value y).
Proof.
  intros Vx Vy Nx Ny.
  destruct x as [sx|sx| |sx mx ex], y as [sy|sy| |sy my ey];
    try (now elim Nx); try (now elim Ny); cbn [SFcompare value valid_binary] in *.
  all: repeat match goal with
         | H : bounded _ _ ?m ?e = true |- _ =>
             pose proof (magnitude_lt_infinite _ _ H);
             pose proof (magnitude_pos m e (proj1 (proj1 (bounded_facts _ _ H))));
             pose proof (proj1 (proj1 (bounded_facts _ _ H)));
             revert H
         end; intros.
  all: assert (Pinf : 0 < infinite_magnitude) by (unfold infinite_magnitude; apply Z.pow_pos_nonneg; lia).
  all: try (destruct sx); try (destruct sy); cbn [cond_Zopp]; f_equal; symmetry.
  all: try reflexivity.
  all: try (apply Z.compare_lt_iff; lia).
  all: try (apply Z.compare_gt_iff; lia).
  all: try (apply Z.compare_eq_iff; lia).
  - destruct (Z.compare_spec ex ey) as [E|E|E].
    + subst. rewrite Z.compare_opp. rewrite (magnitude_compare my mx ey) by lia.
      rewrite Pos.compare_cont_spec, (Pos.compare_antisym my mx).
      now destruct (my ?= mx)%positive.
    + apply Z.compare_gt_iff. pose proof (magnitude_lt_exp _ _ _ _ Vx Vy E). lia.
    + apply Z.compare_lt_iff. pose proof (magnitude_lt_exp _ _ _ _ Vy Vx E). lia.
  - destruct (Z.compare_spec ex ey) as [E|E|E].
    + subst. rewrite (magnitude_compare mx my ey) by lia.
      rewrite Pos.compare_cont_spec. now destruct (mx ?= my)%positive.
    + apply Z.compare_lt_iff. pose proof (magnitude_lt_exp _ _ _ _ Vx Vy E). lia.
    + apply Z.compare_gt_iff. pose proof (magnitude_lt_exp _ _ _ _ Vy Vx E). lia.
Qed.

(** *** Alignment *)

Lemma iter_xO (m d : positive) : Zpos (Pos.iter xO m d) = Zpos m * 2 ^ Zpos d.
Proof.
  induction d as [|d IH] using Pos.peano_ind.
  - cbn. lia.
  - rewrite Pos.iter_succ, Pos2Z.inj_xO, IH, Pos2Z.inj_succ, Z.pow_succ_r by lia. lia.
Qed.

Lemma shl_align_fst (m : positive) (e e' : Z) :
  e' <= e -> Zpos (fst (shl_align m e e')) = Zpos m * 2 ^ (e - e').
Proof.
  intros H. unfold shl_align. destruct (e' - e) as [|d|d] eqn:E.
  - replace (e - e') with 0 by lia. cbn [fst]. lia.
  - lia.
  - cbn [fst]. rewrite iter_xO. f_equal. f_equal. lia.
Qed.

Lemma shl_align_magnitude (m : positive) (e e' : Z) :
  emin <= e' <= e ->
  Zpos (fst (shl_align m e e')) * 2 ^ (e' - emin) = magnitude m e.
Proof.
  intros H. rewrite shl_align_fst by lia. unfold magnitude.
  rewrite <- Z.mul_assoc, <- Z.pow_add_r by lia. do 2 f_equal. lia.
Qed.

(** *** No underflow to zero *)

Lemma shr_1_m (r : shr_record) :
  0 <= shr_m r -> shr_m (shr_1 r) = shr_m r / 2.
Proof.
  destruct r as [m r s]. cbn [shr_m]. intros H. rewrite <- Z.div2_div.
  destruct m as [|[p|p|]|p]; try reflexivity. lia.
Qed.

Lemma iter_shr_1_m (p : positive) (r : shr_record) :
  0 <= shr_m r -> shr_m (iter_pos shr_1 p r) = shr_m r / 2 ^ Zpos p.
Proof.
  revert r. induction p as [p IH|p IH|]; intros r H; cbn [iter_pos].
  - assert (H1 : 0 <= shr_m (shr_1 r)) by (rewrite shr_1_m by exact H; apply Z.div_pos; lia).
    assert (H2 : 0 <= shr_m (iter_pos shr_1 p (shr_1 r)))
      by (rewrite IH by exact H1; apply Z.div_pos; [exact H1 | apply Z.pow_pos_nonneg; lia]).
    rewrite IH, IH, shr_1_m by assumption.
    assert (Hp : 0 < 2 ^ Zpos p) by (apply Z.pow_pos_nonneg; lia).
    rewrite !Z.div_div by lia. f_equal.
    replace (Zpos p~1) with (1 + Zpos p + Zpos p) by lia.
    rewrite !Z.pow_add_r by lia. change (2 ^ 1) with 2. lia.
  - assert (H2 : 0 <= shr_m (iter_pos shr_1 p r))
      by (rewrite IH by exact H; apply Z.div_pos; [exact H | apply Z.pow_pos_nonneg; lia]).
    rewrite IH, IH by assumption.
    assert (Hp : 0 < 2 ^ Zpos p) by (apply Z.pow_pos_nonneg; lia).
    rewrite !Z.div_div by lia. f_equal.
    replace (Zpos p~0) with (Zpos p + Zpos p) by lia.
    now rewrite !Z.pow_add_r by lia.
  - rewrite shr_1_m by exact H. reflexivity.
Qed.

Lemma shr_record_of_loc_m (m : Z) (l : location) : shr_m (shr_record_of_loc m l) = m.
Proof. now destruct l as [|[]]. Qed.

Lemma shr_fexp_pos (M : positive) (e : Z) (l : location) :
  emin <= e ->
  0 < shr_m (fst (shr_fexp prec emax (Zpos M) e l))
  /\ emin <= snd (shr_fexp prec emax (Zpos M) e l).
Proof.
  intros He. unfold shr_fexp, shr, fexp, SpecFloat.emin. cbn [Zdigits2].
  pose proof (digits_bounds M) as [Hlo _].
  set (d := Zpos (digits2_pos M)) in *.
  destruct (Z.max (d + e - prec) (3 - emax - prec) - e) as [|p|p] eqn:E; cbn [fst snd].
  - rewrite shr_record_of_loc_m. lia.
  - split; [|lia]. rewrite iter_shr_1_m, shr_record_of_loc_m
      by (rewrite shr_record_of_loc_m; lia).
    apply Z.div_str_pos. split; [apply Z.pow_pos_nonneg; lia|].
    apply Z.le_trans with (2 := Hlo). apply Z.pow_le_mono_r; lia.
  - rewrite shr_record_of_loc_m. lia.
Qed.

Lemma round_nearest_even_pos (m : Z) (l : location) :
  0 < m -> 0 < round_nearest_even m l.
Proof. intros H. destruct l as [|[]]; cbn; try destruct (Z.even m); lia. Qed.

Lemma binary_round_aux_signed (s : bool) (m e : Z) (l : location) :
  signed s (binary_round_aux prec emax s m e l).
Proof.
  unfold binary_round_aux.
  destruct (shr_fexp prec emax m e l) as [mrs' e'].
  destruct (shr_fexp prec emax _ e' loc_Exact) as [mrs'' e''].
  destruct (shr_m mrs''); [| destruct (e'' <=? emax - prec) |]; now cbn.
Qed.

Lemma binary_round_aux_nonzero (s : bool) (M : positive) (e : Z) (l : location) :
  emin <= e -> nonzero s (binary_round_aux prec emax s (Zpos M) e l).
Proof.
  intros He. unfold binary_round_aux.
  pose proof (shr_fexp_pos M e l He) as [H1 H2].
  destruct (shr_fexp prec emax (Zpos M) e l) as [mrs' e']. cbn [fst snd] in *.
  pose proof (round_nearest_even_pos (shr_m mrs') (loc_of_shr_record mrs') H1) as H3.
  destruct (round_nearest_even (shr_m mrs') (loc_of_shr_record mrs')) as [|M'|M'];
    try lia.
  pose proof (shr_fexp_pos M' e' loc_Exact H2) as [H4 _].
  destruct (shr_fexp prec emax (Zpos M') e' loc_Exact) as [mrs'' e'']. cbn [fst snd] in *.
  destruct (shr_m mrs''); try lia.
  now destruct (e'' <=? emax - prec).
Qed.

Lemma binary_round_nonzero (s : bool) (M : positive) (e : Z) :
  emin <= e -> nonzero s (binary_round prec emax s M e).
Proof.
  intros He. unfold binary_round.
  destruct (shl_align M e (fexp prec emax (Zpos (digits2_pos M) + e))) as [mz ez] eqn:E.
  apply binary_round_aux_nonzero.
  unfold shl_align, fexp, SpecFloat.emin in E.
  destruct (Z.max (Zpos (digits2_pos M) + e - prec) (3 - emax - prec) - e) eqn:E';
    inversion E; subst; lia.
Qed.

Lemma binary_round_signed (s : bool) (M : positive) (e : Z) :
  signed s (binary_round prec emax s M e).
Proof.
  unfold binary_round. destruct (shl_align M e _) as [mz ez].
  apply binary_round_aux_signed.
Qed.

Lemma pzero_lt_nonzero (f : spec_float) : nonzero false f -> SFltb pzero f = true.
Proof. destruct f as [| | |s m e]; cbn; try tauto; now intros ->. Qed.

Lemma pzero_lt_signed (f : spec_float) : signed true f -> SFltb pzero f = false.
Proof. destruct f as [s|s| |s m e]; cbn; try reflexivity; now intros ->. Qed.

Lemma SFltb_value (x y : spec_float) :
  valid_binary x = true -> valid_binary y = true -> not_nan x -> not_nan y ->
  SFltb x y = (value x <? value y).
Proof.
  intros Vx Vy Nx Ny. unfold SFltb, Z.ltb. now rewrite compare_value.
Qed.

(** The sign of a difference: [y - x] is positive exactly when [x < y]. *)
Lemma SFsub_positive (x y : spec_float) :
  valid_binary x = true -> valid_binary y = true -> not_nan x -> not_nan y ->
  SFltb pzero (SFsub prec emax y x) = SFltb x y.
Proof.
  intros Vx Vy Nx Ny.
  destruct x as [sx|sx| |sx mx ex], y as [sy|sy| |sy my ey];
    try (now elim Nx); try (now elim Ny);
    try (destruct sx, sy; reflexivity); try (destruct sx; reflexivity);
    try (destruct sy; reflexivity).
  rewrite (SFltb_value _ _ Vx Vy Nx Ny). cbn [SFsub value valid_binary] in *.
  pose proof (bounded_facts _ _ Vx) as ([Ex _] & _).
  pose proof (bounded_facts _ _ Vy) as ([Ey _] & _).
  match goal with |- context [binary_normalize _ _ _ ?z _] => set (ez := z) in * end.
  assert (Hez : emin <= ez /\ ez <= ex /\ ez <= ey) by (unfold ez; lia).
  pose proof (shl_align_magnitude mx ex ez ltac:(lia)) as Ax.
  pose proof (shl_align_magnitude my ey ez ltac:(lia)) as Ay.
  clearbody ez.
  set (ax := Zpos (fst (shl_align mx ex ez))) in *.
  set (ay := Zpos (fst (shl_align my ey ez))) in *.
  assert (Hp : 0 < 2 ^ (ez - emin)) by (apply Z.pow_pos_nonneg; lia).
  assert (HD : (cond_Zopp sy ay - cond_Zopp sx ax) * 2 ^ (ez - emin)
               = cond_Zopp sy (magnitude my ey) - cond_Zopp sx (magnitude mx ex)).
  { rewrite <- Ax, <- Ay. destruct sx, sy; cbn [cond_Zopp]; lia. }
  destruct (cond_Zopp sy ay - cond_Zopp sx ax) as [|D|D] eqn:ED; cbn [binary_normalize].
  - symmetry. apply Z.ltb_ge. lia.
  - rewrite pzero_lt_nonzero by (apply binary_round_nonzero; lia).
    symmetry. apply Z.ltb_lt. nia.
  - rewrite pzero_lt_signed by apply binary_round_signed.
    symmetry. apply Z.ltb_ge. nia.
Qed.

(** *** Primitive floats *)

Lemma is_nan_spec (x : float) : PrimFloat.is_nan x = false <-> not_nan (Prim2SF x).
Proof.
  unfold PrimFloat.is_nan, not_nan. rewrite negb_false_iff, FloatAxioms.eqb_spec. unfold SFeqb.
  destruct (Prim2SF x) as [s|s| |s m e]; cbn.
  - split; [discriminate | reflexivity].
  - split; [discriminate | now destruct s].
  - split; [discriminate | now intros H; elim H].
  - rewrite Z.compare_refl, Pos.compare_cont_refl.
    split; [discriminate | now destruct s].
Qed.

Lemma ltb_value (x y : float) :
  PrimFloat.is_nan x = false -> PrimFloat.is_nan y = false ->
  PrimFloat.ltb x y = (value (Prim2SF x) <? value (Prim2SF y)).
Proof.
  intros Nx Ny. rewrite FloatAxioms.ltb_spec.
  apply SFltb_value; auto using Prim2SF_valid; now apply is_nan_spec.
Qed.

Lemma sub_positive_float (x y : float) :
  PrimFloat.is_nan x = false -> PrimFloat.is_nan y = false ->
  PrimFloat.ltb 0 (y - x) = PrimFloat.ltb x y.
Proof.
  intros Nx Ny. rewrite !FloatAxioms.ltb_spec, FloatAxioms.sub_spec.
  apply SFsub_positive; auto using Prim2SF_valid; now apply is_nan_spec.
Qed.

Lemma binary64_lawful :
  @LawfulOrder Binary64.number (fun x => PrimFloat.is_nan x = false).
Proof.
  constructor; cbn [nltb nsub lit Binary64.number num].
  - intros x y Hx Hy. now apply sub_positive_float.
  - intros x Hx. rewrite (ltb_value x x Hx Hx). apply Z.ltb_irrefl.
  - intros x y z Hx Hy Hz.
    rewrite (ltb_value x y), (ltb_value y z), (ltb_value x z), !Z.ltb_lt by assumption.
    lia.
  - intros x y z Hx Hy Hz.
    rewrite (ltb_value x y), (ltb_value y z), (ltb_value x z), !Z.ltb_lt by assumption.
    lia.
Qed.

End Binary64Order.

(** ** Binary64: rounding is monotone *)

Section Binary64Rounding.
Local Open Scope Z_scope.
Local Notation "'prec'" := 53%Z.
Local Notation "'emax'" := 1024%Z.
Local Notation "'emin'" := (-1074)%Z.

Lemma nearest_even_bounds (P t : Z) :
  0 <= t -> P / 2 ^ t <= nearest_even P t <= P / 2 ^ t + 1.
Proof.
  intros Ht. unfold nearest_even.
  destruct (2 * (P mod 2 ^ t) <? 2 ^ t); [lia|].
  destruct (2 ^ t <? 2 * (P mod 2 ^ t)); [lia|].
  destruct (Z.even (P / 2 ^ t)); lia.
Qed.

Lemma nearest_even_mono (P P' t : Z) :
  0 <= t -> P <= P' -> nearest_even P t <= nearest_even P' t.
Proof.
  intros Ht HP.
  assert (Hp : 0 < 2 ^ t) by (apply Z.pow_pos_nonneg; lia).
  pose proof (Z.div_le_mono P P' (2 ^ t) Hp HP) as Hq.
  destruct (Z.eq_dec (P / 2 ^ t) (P' / 2 ^ t)) as [E|E].
  - pose proof (Z.div_mod P (2 ^ t) ltac:(lia)) as D.
    pose proof (Z.div_mod P' (2 ^ t) ltac:(lia)) as D'.
    assert (Hr : P mod 2 ^ t <= P' mod 2 ^ t) by (rewrite E in D; lia).
    unfold nearest_even. rewrite E.
    destruct (2 * (P mod 2 ^ t) <? 2 ^ t) eqn:A, (2 * (P' mod 2 ^ t) <? 2 ^ t) eqn:A';
    destruct (2 ^ t <? 2 * (P mod 2 ^ t)) eqn:B, (2 ^ t <? 2 * (P' mod 2 ^ t)) eqn:B';
    destruct (Z.even (P' / 2 ^ t)); lia.
  - pose proof (nearest_even_bounds P t Ht). pose proof (nearest_even_bounds P' t Ht). lia.
Qed.

Lemma log2_bounds (P : Z) : 0 < P -> 2 ^ Z.log2 P <= P < 2 ^ (Z.log2 P + 1).
Proof. intros H. pose proof (Z.log2_spec P H). now rewrite <- Z.add_1_r in *. Qed.

Lemma rounded_nonneg (base P : Z) : 0 <= base -> 0 <= P -> 0 <= rounded base P.
Proof.
  intros Hb HP. unfold rounded.
  assert (Ht : 0 <= last_place base P) by (unfold last_place; lia).
  apply Z.mul_nonneg_nonneg; [|apply Z.pow_nonneg; lia].
  pose proof (nearest_even_bounds P _ Ht).
  assert (0 <= P / 2 ^ last_place base P) by (apply Z.div_pos; [lia | apply Z.pow_pos_nonneg; lia]).
  lia.
Qed.

(** The rounded value does not pass the next power of two. *)
Lemma rounded_upper (base P : Z) :
  0 <= base -> 0 < P ->
  rounded base P <= 2 ^ Z.max (Z.log2 P + 1) (last_place base P).
Proof.
  intros Hb HP. unfold rounded.
  set (t := last_place base P). set (d := Z.log2 P + 1).
  assert (Ht : 0 <= t) by (unfold t, last_place; lia).
  assert (Hd : 0 < d) by (unfold d; pose proof (Z.log2_nonneg P); lia).
  pose proof (log2_bounds P HP) as [_ Hhi]. fold d in Hhi.
  assert (Hp : 0 < 2 ^ t) by (apply Z.pow_pos_nonneg; lia).
  pose proof (nearest_even_bounds P t Ht) as [_ Hup].
  destruct (Z.le_gt_cases t d) as [Htd|Htd].
  - rewrite Z.max_l by lia.
    assert (Hq : P / 2 ^ t < 2 ^ (d - t)).
    { apply Z.div_lt_upper_bound; [exact Hp|]. rewrite <- Z.pow_add_r by lia.
      now replace (t + (d - t)) with d by lia. }
    replace (2 ^ d) with (2 ^ (d - t) * 2 ^ t)
      by (rewrite <- Z.pow_add_r by lia; f_equal; lia).
    apply Z.mul_le_mono_nonneg_r; lia.
  - rewrite Z.max_r by lia.
    assert (Hq : P / 2 ^ t = 0).
    { apply Z.div_small. split; [lia|]. apply Z.lt_trans with (1 := Hhi).
      apply Z.pow_lt_mono_r; lia. }
    rewrite Hq in Hup. nia.
Qed.

Lemma rounded_lower (base P : Z) :
  0 <= base -> 0 < P -> base < last_place base P ->
  2 ^ Z.log2 P <= rounded base P.
Proof.
  intros Hb HP Hbase. unfold rounded.
  set (t := last_place base P) in *. set (l := Z.log2 P).
  assert (Ht : t = l + 1 - 53) by (unfold t, last_place in *; fold l in Hbase |- *; lia).
  assert (Ht0 : 0 <= t) by lia.
  pose proof (log2_bounds P HP) as [Hlo _]. fold l in Hlo.
  assert (Hp : 0 < 2 ^ t) by (apply Z.pow_pos_nonneg; lia).
  pose proof (nearest_even_bounds P t Ht0) as [Hdn _].
  assert (Hq : 2 ^ (l - t) <= P / 2 ^ t).
  { apply Z.div_le_lower_bound; [exact Hp|]. rewrite <- Z.pow_add_r by lia.
    now replace (t + (l - t)) with l by lia. }
  replace (2 ^ l) with (2 ^ (l - t) * 2 ^ t)
    by (rewrite <- Z.pow_add_r by lia; f_equal; lia).
  apply Z.mul_le_mono_nonneg_r; lia.
Qed.

Lemma rounded_zero (base : Z) : 0 <= base -> rounded base 0 = 0.
Proof.
  intros Hb. unfold rounded, nearest_even.
  set (t := last_place base 0).
  assert (Hp : 0 < 2 ^ t) by (apply Z.pow_pos_nonneg; unfold t, last_place; lia).
  rewrite Z.mod_0_l, Z.div_0_l by lia.
  destruct (2 * 0 <? 2 ^ t) eqn:E; [lia|]. apply Z.ltb_ge in E. lia.
Qed.

Theorem rounded_mono (base P P' : Z) :
  0 <= base -> 0 <= P <= P' -> rounded base P <= rounded base P'.
Proof.
  intros Hb [H0 HP].
  destruct (Z.eq_dec P 0) as [->|Hnz].
  { rewrite rounded_zero by exact Hb. apply rounded_nonneg; lia. }
  assert (HP0 : 0 < P) by lia. assert (HP0' : 0 < P') by lia.
  pose proof (Z.log2_le_mono P P' HP) as Hl.
  destruct (Z.eq_dec (last_place base P) (last_place base P')) as [E|E].
  - unfold rounded. rewrite E.
    assert (Ht : 0 <= last_place base P') by (unfold last_place; lia).
    apply Z.mul_le_mono_nonneg_r; [apply Z.pow_nonneg; lia|].
    now apply nearest_even_mono.
  - assert (Hlt : last_place base P < last_place base P') by (unfold last_place in *; lia).
    assert (Hbase : base < last_place base P') by (unfold last_place in *; lia).
    apply Z.le_trans with (1 := rounded_upper base P Hb HP0).
    apply Z.le_trans with (2 := rounded_lower base P' Hb HP0' Hbase).
    apply Z.pow_le_mono_r; [lia|]. unfold last_place in *. lia.
Qed.

(** *** What the shifts leave behind *)

Lemma shr_1_bits (rec : shr_record) :
  0 <= shr_m rec ->
  shr_r (shr_1 rec) = Z.odd (shr_m rec) /\ shr_s (shr_1 rec) = shr_r rec || shr_s rec.
Proof.
  destruct rec as [m r s]. cbn [shr_m shr_r shr_s]. intros H.
  destruct m as [|[p|p|]|p]; cbn; auto. lia.
Qed.

Lemma shifted_step (N k : Z) (rec : shr_record) :
  0 <= N -> 0 <= k -> shifted N k rec -> shifted N (k + 1) (shr_1 rec).
Proof.
  intros HN Hk [Hm Hloc].
  assert (Hp : 0 < 2 ^ k) by (apply Z.pow_pos_nonneg; lia).
  assert (Hm0 : 0 <= shr_m rec) by (rewrite Hm; apply Z.div_pos; lia).
  destruct (shr_1_bits rec Hm0) as [Hr Hs].
  assert (Hpow : 2 ^ (k + 1) = 2 ^ k * 2) by (rewrite Z.pow_add_r by lia; reflexivity).
  assert (Hmod : N mod 2 ^ (k + 1) = N mod 2 ^ k + 2 ^ k * (shr_m rec mod 2))
    by (rewrite Hpow, Hm; apply Z.rem_mul_r; lia).
  pose proof (Z.mod_pos_bound N (2 ^ k) Hp) as Hrem.
  rewrite Zmod_odd in Hmod.
  split.
  - rewrite (shr_1_m rec Hm0), Hm, Hpow, Z.div_div by lia. reflexivity.
  - rewrite Hr, Hs, Hmod, Hpow.
    destruct (shr_r rec), (shr_s rec), (Z.odd (shr_m rec)); cbn [orb]; lia.
Qed.

Lemma shifted_iter (N : Z) (p : positive) (k : Z) (rec : shr_record) :
  0 <= N -> 0 <= k -> shifted N k rec -> shifted N (k + Zpos p) (iter_pos shr_1 p rec).
Proof.
  intros HN. revert k rec.
  induction p as [p IH|p IH|]; intros k rec Hk H; cbn [iter_pos].
  - replace (k + Zpos p~1) with (k + 1 + Zpos p + Zpos p) by lia.
    apply IH; [lia|]. apply IH; [lia|]. now apply shifted_step.
  - replace (k + Zpos p~0) with (k + Zpos p + Zpos p) by lia.
    apply IH; [lia|]. now apply IH.
  - now apply shifted_step.
Qed.

Lemma shifted_start (N : Z) : shifted N 0 {| shr_m := N; shr_r := false; shr_s := false |}.
Proof. split; cbn; [now rewrite Z.div_1_r | apply Z.mod_1_r]. Qed.

Lemma shifted_round (N k : Z) (rec : shr_record) :
  0 <= k -> shifted N k rec ->
  round_nearest_even (shr_m rec) (loc_of_shr_record rec) = nearest_even N k.
Proof.
  intros Hk [Hm Hloc]. unfold nearest_even. rewrite <- Hm.
  assert (Hp : 0 < 2 ^ k) by (apply Z.pow_pos_nonneg; lia).
  destruct rec as [m [] []]; cbn [shr_m shr_r shr_s loc_of_shr_record round_nearest_even] in *.
  - destruct (Z.ltb_spec (2 * (N mod 2 ^ k)) (2 ^ k)); [lia|].
    destruct (Z.ltb_spec (2 ^ k) (2 * (N mod 2 ^ k))); [reflexivity | lia].
  - destruct (Z.ltb_spec (2 * (N mod 2 ^ k)) (2 ^ k)); [lia|].
    destruct (Z.ltb_spec (2 ^ k) (2 * (N mod 2 ^ k))); [lia | reflexivity].
  - destruct (Z.ltb_spec (2 * (N mod 2 ^ k)) (2 ^ k)); [reflexivity | lia].
  - destruct (Z.ltb_spec (2 * (N mod 2 ^ k)) (2 ^ k)); [reflexivity | lia].
Qed.

(** *** The rounding of [binary_round_aux] *)

Lemma digits_log2 (N : positive) : Zpos (digits2_pos N) = Z.log2 (Zpos N) + 1.
Proof.
  pose proof (digits_bounds N) as H.
  assert (Z.log2 (Zpos N) = Zpos (digits2_pos N) - 1); [|lia].
  apply Z.log2_unique; [lia|]. now replace (Z.succ (Zpos (digits2_pos N) - 1))
    with (Zpos (digits2_pos N)) by lia.
Qed.

Lemma last_place_scaled (base N a : Z) :
  0 < N -> 0 <= a ->
  last_place base (N * 2 ^ a) = Z.max (Z.log2 N + 1 + a - 53) base.
Proof.
  intros HN Ha. unfold last_place. rewrite Z.log2_mul_pow2 by lia. f_equal. lia.
Qed.

Lemma nearest_even_scaled (N a k : Z) :
  0 <= a -> 0 <= k -> nearest_even (N * 2 ^ a) (k + a) = nearest_even N k.
Proof.
  intros Ha Hk. unfold nearest_even.
  assert (Hpa : 0 < 2 ^ a) by (apply Z.pow_pos_nonneg; lia).
  assert (Hpk : 0 < 2 ^ k) by (apply Z.pow_pos_nonneg; lia).
  rewrite Z.pow_add_r, Z.div_mul_cancel_r, Z.mul_mod_distr_r by lia.
  replace (2 * (N mod 2 ^ k * 2 ^ a)) with (2 * (N mod 2 ^ k) * 2 ^ a) by lia.
  destruct (Z.ltb_spec (2 * (N mod 2 ^ k)) (2 ^ k)),
           (Z.ltb_spec (2 * (N mod 2 ^ k) * 2 ^ a) (2 ^ k * 2 ^ a)); try nia.
  destruct (Z.ltb_spec (2 ^ k) (2 * (N mod 2 ^ k))),
           (Z.ltb_spec (2 ^ k * 2 ^ a) (2 * (N mod 2 ^ k) * 2 ^ a)); nia.
Qed.

(** The first shift of a mantissa that needs none to the left. *)
Lemma shr_fexp_exact (N : positive) (E : Z) :
  E <= fexp prec emax (Zpos (digits2_pos N) + E) ->
  exists rec,
    shr_fexp prec emax (Zpos N) E loc_Exact
    = (rec, fexp prec emax (Zpos (digits2_pos N) + E))
    /\ shifted (Zpos N) (fexp prec emax (Zpos (digits2_pos N) + E) - E) rec.
Proof.
  intros H. unfold shr_fexp, shr. cbn [Zdigits2 shr_record_of_loc].
  set (t := fexp prec emax (Zpos (digits2_pos N) + E)) in *.
  destruct (t - E) as [|p|p] eqn:Ep; [| |lia].
  - eexists. split; [f_equal; lia | apply shifted_start].
  - eexists. split; [f_equal; lia|].
    apply (shifted_iter (Zpos N) p 0); [lia | lia | apply shifted_start].
Qed.

(** The second shift: at most one place, and exact. *)
Lemma shr_fexp_renormalize (M e : Z) :
  0 <= M <= 2 ^ 53 -> emin <= e ->
  exists rec e',
    shr_fexp prec emax M e loc_Exact = (rec, e')
    /\ 0 <= shr_m rec < 2 ^ 53
    /\ e <= e'
    /\ shr_m rec * 2 ^ (e' - e) = M
    /\ (2 ^ 52 <= M -> 2 ^ 52 <= shr_m rec).
Proof.
  intros [H0 H53] He. unfold shr_fexp, shr, fexp, SpecFloat.emin.
  cbn [shr_record_of_loc].
  destruct M as [|m|m]; [| |lia]; cbn [Zdigits2].
  - destruct (Z.max (0 + e - prec) (3 - emax - prec) - e) eqn:E; try lia;
      do 2 eexists; (split; [reflexivity|]); cbn [shr_m];
      rewrite ?Z.sub_diag; cbn; lia.
  - pose proof (digits_bounds m) as [Hlo Hhi].
    set (d := Zpos (digits2_pos m)) in *.
    destruct (Z.eq_dec (Zpos m) (2 ^ 53)) as [E53|N53].
    + assert (Hd : d = 54).
      { assert (d - 1 <= 53) by (apply (Z.pow_le_mono_r_iff 2); lia).
        assert (53 < d) by (apply (Z.pow_lt_mono_r_iff 2); lia). lia. }
      replace (Z.max (d + e - prec) (3 - emax - prec) - e) with 1 by lia.
      do 2 eexists. split; [reflexivity|]. cbn [iter_pos].
      rewrite shr_1_m by (cbn; lia). cbn [shr_m]. rewrite E53.
      replace (e + 1 - e) with 1 by lia.
      change (2 ^ 53 / 2) with (2 ^ 52). change (2 ^ 1) with 2.
      change (2 ^ 53) with (2 ^ 52 * 2). lia.
    + assert (Hd : d <= 53).
      { assert (d - 1 < 53) by (apply (Z.pow_lt_mono_r_iff 2); lia). lia. }
      destruct (Z.max (d + e - prec) (3 - emax - prec) - e) eqn:E; try lia;
        do 2 eexists; (split; [reflexivity|]); cbn [shr_m];
        rewrite ?Z.sub_diag; cbn [Z.pow]; lia.
Qed.

Lemma pow2_pos (a : Z) : 0 <= a -> 0 < 2 ^ a.
Proof. intros. apply Z.pow_pos_nonneg; lia. Qed.

Lemma binary_round_aux_value (s : bool) (N : positive) (E : Z) :
  2 * emin <= E -> E <= fexp prec emax (Zpos (digits2_pos N) + E) ->
  not_nan (binary_round_aux prec emax s (Zpos N) E loc_Exact)
  /\ value (binary_round_aux prec emax s (Zpos N) E loc_Exact) * 2 ^ 1074
     = cond_Zopp s (Z.min (rounded 1074 (Zpos N * 2 ^ (E + 2148))) (2 ^ 3172)).
Proof.
  intros HE Ht. unfold binary_round_aux.
  destruct (shr_fexp_exact N E Ht) as (rec1 & E1 & S1). rewrite E1.
  pose proof (digits_bounds N) as [Hlo Hhi].
  pose proof (digits_log2 N) as Hlog.
  set (d := Zpos (digits2_pos N)) in *.
  assert (Httt : fexp prec emax (d + E) = Z.max (d + E - 53) emin) by reflexivity.
  set (t := fexp prec emax (d + E)) in *. clearbody t.
  set (p := t - E) in *.
  assert (Hp : 0 <= p) by (unfold p; lia).
  rewrite (shifted_round (Zpos N) p rec1 Hp S1).
  set (M1 := nearest_even (Zpos N) p).
  pose proof (nearest_even_bounds (Zpos N) p Hp) as [Hq1 Hq2]. fold M1 in Hq1, Hq2.
  assert (Hq0 : 0 <= Zpos N / 2 ^ p) by (apply Z.div_pos; [lia | now apply pow2_pos]).
  assert (Hq53 : Zpos N / 2 ^ p < 2 ^ 53).
  { apply Z.div_lt_upper_bound; [now apply pow2_pos|].
    rewrite <- Z.pow_add_r by lia. apply Z.lt_le_trans with (1 := Hhi).
    apply Z.pow_le_mono_r; lia. }
  destruct (shr_fexp_renormalize M1 t ltac:(lia) ltac:(lia))
    as (rec2 & e2 & E2 & Hm2 & He2 & Hval & Hnorm).
  rewrite E2.
  assert (Hround : rounded 1074 (Zpos N * 2 ^ (E + 2148)) = M1 * 2 ^ (t + 2148)).
  { unfold rounded. rewrite last_place_scaled by lia.
    replace (Z.max (Z.log2 (Zpos N) + 1 + (E + 2148) - 53) 1074) with (p + (E + 2148))
      by (unfold p; lia).
    rewrite nearest_even_scaled by lia. fold M1. do 2 f_equal. unfold p. lia. }
  rewrite Hround.
  assert (HM1 : M1 * 2 ^ (t + 2148) = shr_m rec2 * 2 ^ (e2 + 2148)).
  { rewrite <- Hval, <- Z.mul_assoc, <- Z.pow_add_r by lia. do 2 f_equal. lia. }
  rewrite HM1.
  destruct (shr_m rec2) as [|M|M] eqn:EM; [| |lia].
  - split; [discriminate|]. cbn [value]. rewrite Z.mul_0_l.
    rewrite Z.min_l by (apply Z.lt_le_incl, pow2_pos; lia). now destruct s.
  - destruct (Z.leb_spec e2 (emax - prec)) as [Hfin|Hinf].
    + split; [discriminate|]. cbn [value]. unfold magnitude.
      assert (Hlt : Zpos M * 2 ^ (e2 + 2148) < 2 ^ 3172).
      { apply Z.lt_le_trans with (2 ^ 53 * 2 ^ (e2 + 2148)).
        - apply Z.mul_lt_mono_pos_r; [apply pow2_pos; lia | lia].
        - rewrite <- Z.pow_add_r by lia. apply Z.pow_le_mono_r; lia. }
      rewrite Z.min_l by lia.
      replace (e2 + 2148) with ((e2 - emin) + 1074) by lia.
      rewrite Z.pow_add_r by lia. destruct s; cbn [cond_Zopp]; lia.
    + split; [discriminate|]. cbn [value]. unfold infinite_magnitude.
      assert (Hnormal : 2 ^ 52 <= M1).
      { assert (He2t : e2 - t <= 53).
        { apply (Z.pow_le_mono_r_iff 2); [lia | lia |].
          assert (0 < 2 ^ (e2 - t)) by (apply pow2_pos; lia). nia. }
        assert (Htd : t = d + E - 53) by lia.
        apply Z.le_trans with (2 := Hq1).
        apply Z.div_le_lower_bound; [now apply pow2_pos|].
        rewrite <- Z.pow_add_r by lia. apply Z.le_trans with (2 := Hlo).
        apply Z.pow_le_mono_r; unfold p; lia. }
      assert (Hge : 2 ^ 3172 <= Zpos M * 2 ^ (e2 + 2148)).
      { apply Z.le_trans with (2 ^ 52 * 2 ^ (e2 + 2148)).
        - rewrite <- Z.pow_add_r by lia. apply Z.pow_le_mono_r; lia.
        - apply Z.mul_le_mono_nonneg_r; [apply Z.lt_le_incl, pow2_pos; lia|].
          apply Hnorm, Hnormal. }
      rewrite Z.min_r by lia.
      replace 3172 with ((emax - emin) + 1074) by lia.
      rewrite Z.pow_add_r by lia. destruct s; cbn [cond_Zopp]; lia.
Qed.

(** *** Products and sums *)

Lemma round_value_mono (v v' : Z) : v <= v' -> round_value v <= round_value v'.
Proof.
  intros H. unfold round_value.
  assert (Ho : 0 < overflow) by (apply pow2_pos; lia).
  destruct (Z.ltb_spec v 0), (Z.ltb_spec v' 0).
  - pose proof (rounded_mono 1074 (- v') (- v) ltac:(lia) ltac:(lia)). lia.
  - pose proof (rounded_nonneg 1074 (- v) ltac:(lia) ltac:(lia)).
    pose proof (rounded_nonneg 1074 v' ltac:(lia) ltac:(lia)). lia.
  - lia.
  - pose proof (rounded_mono 1074 v v' ltac:(lia) ltac:(lia)). lia.
Qed.

Lemma round_value_signed (s : bool) (P : Z) :
  0 <= P -> round_value (cond_Zopp s P) = cond_Zopp s (Z.min (rounded 1074 P) overflow).
Proof.
  intros HP.
  assert (Hz : Z.min (rounded 1074 0) overflow = 0).
  { rewrite rounded_zero by lia. apply Z.min_l, Z.lt_le_incl, pow2_pos. lia. }
  destruct (Z.eq_dec P 0) as [->|Hnz].
  - rewrite Hz. destruct s; cbn [cond_Zopp Z.opp]; unfold round_value;
      rewrite Z.ltb_irrefl; exact Hz.
  - unfold round_value. destruct s; cbn [cond_Zopp].
    + destruct (Z.ltb_spec (- P) 0); [|lia]. now rewrite Z.opp_involutive.
    + destruct (Z.ltb_spec P 0); [lia|]. reflexivity.
Qed.

Lemma round_value_zero : round_value 0 = 0.
Proof. exact (round_value_signed false 0 (Z.le_refl 0)). Qed.

Lemma canonical_digits (m : positive) (e : Z) :
  bounded prec emax m e = true ->
  Z.max (Zpos (digits2_pos m) + e - 53) emin = e.
Proof.
  unfold bounded, canonical_mantissa, fexp, SpecFloat.emin.
  rewrite andb_true_iff, Z.eqb_eq. intros [H _]. exact H.
Qed.

Lemma digits_mul (m1 m2 : positive) :
  Zpos (digits2_pos m1) + Zpos (digits2_pos m2) - 1 <= Zpos (digits2_pos (m1 * m2)).
Proof.
  pose proof (digits_bounds m1) as [L1 _]. pose proof (digits_bounds m2) as [L2 _].
  pose proof (digits_bounds (m1 * m2)) as [_ H].
  set (d1 := Zpos (digits2_pos m1)) in *. set (d2 := Zpos (digits2_pos m2)) in *.
  set (d := Zpos (digits2_pos (m1 * m2))) in *.
  assert (Hlt : 2 ^ (d1 - 1 + (d2 - 1)) < 2 ^ d).
  { rewrite Z.pow_add_r by lia. rewrite Pos2Z.inj_mul in H.
    apply Z.le_lt_trans with (2 := H). apply Z.mul_le_mono_nonneg; try lia;
      apply Z.lt_le_incl, pow2_pos; lia. }
  apply Z.pow_lt_mono_r_iff in Hlt; lia.
Qed.

Lemma SFmul_value (x y : spec_float) :
  valid_binary x = true -> valid_binary y = true -> finite x -> finite y ->
  not_nan (SFmul prec emax x y)
  /\ value (SFmul prec emax x y) * unit_scale = round_value (value x * value y).
Proof.
  intros Vx Vy Fx Fy.
  pose proof round_value_zero as Hz.
  destruct x as [sx|sx| |sx mx ex], y as [sy|sy| |sy my ey]; try contradiction;
    cbn [SFmul value]; rewrite ?Z.mul_0_l, ?Z.mul_0_r, ?Hz;
    try (split; [discriminate | reflexivity]).
  cbn [valid_binary] in *.
  pose proof (bounded_facts _ _ Vx) as ([Ex _] & _).
  pose proof (bounded_facts _ _ Vy) as ([Ey _] & _).
  pose proof (canonical_digits _ _ Vx) as Cx. pose proof (canonical_digits _ _ Vy) as Cy.
  pose proof (digits_mul mx my) as Hd.
  pose proof (digits_bounds mx) as [Lx _]. pose proof (digits_bounds my) as [Ly _].
  assert (Hdx : 1 <= Zpos (digits2_pos mx)) by lia.
  assert (Hdy : 1 <= Zpos (digits2_pos my)) by lia.
  destruct (binary_round_aux_value (xorb sx sy) (mx * my) (ex + ey)) as [Hn Hv].
  - lia.
  - unfold fexp, SpecFloat.emin. lia.
  - split; [exact Hn|]. unfold unit_scale. rewrite Hv.
    replace (cond_Zopp sx (magnitude mx ex) * cond_Zopp sy (magnitude my ey))
      with (cond_Zopp (xorb sx sy) (magnitude mx ex * magnitude my ey))
      by (destruct sx, sy; cbn [cond_Zopp xorb]; lia).
    rewrite round_value_signed
      by (apply Z.mul_nonneg_nonneg; apply Z.lt_le_incl, magnitude_pos; lia).
    unfold overflow, magnitude. do 3 f_equal.
    rewrite Pos2Z.inj_mul.
    replace (ex + ey + 2148) with ((ex - emin) + (ey - emin)) by lia.
    rewrite Z.pow_add_r by lia. lia.
Qed.

Lemma digits_shift (m d : positive) :
  Zpos (digits2_pos (Pos.iter xO m d)) = Zpos (digits2_pos m) + Zpos d.
Proof.
  rewrite !digits_log2, iter_xO, Z.log2_mul_pow2 by lia. lia.
Qed.

Lemma binary_round_value (s : bool) (M : positive) (e : Z) :
  emin <= e ->
  not_nan (binary_round prec emax s M e)
  /\ value (binary_round prec emax s M e) * unit_scale
     = cond_Zopp s (Z.min (rounded 1074 (Zpos M * 2 ^ (e + 2148))) overflow).
Proof.
  intros He. unfold binary_round, shl_align, unit_scale, overflow.
  set (t := fexp prec emax (Zpos (digits2_pos M) + e)).
  assert (Ht : t = Z.max (Zpos (digits2_pos M) + e - 53) emin) by reflexivity.
  destruct (t - e) as [|p|p] eqn:E.
  - apply binary_round_aux_value; [lia | fold t; lia].
  - apply binary_round_aux_value; [lia | fold t; lia].
  - destruct (binary_round_aux_value s (Pos.iter xO M p) t) as [Hn Hv].
    + lia.
    + rewrite digits_shift. unfold fexp, SpecFloat.emin. lia.
    + split; [exact Hn|]. rewrite Hv, iter_xO. do 3 f_equal.
      rewrite <- Z.mul_assoc, <- Z.pow_add_r by lia. do 2 f_equal. lia.
Qed.

(** A valid float is its own rounding. *)
Lemma rounded_exact (m : positive) (e : Z) :
  bounded prec emax m e = true ->
  Z.min (rounded 1074 (magnitude m e * unit_scale)) overflow = magnitude m e * unit_scale.
Proof.
  intros Hb. pose proof (canonical_digits _ _ Hb) as Hc.
  pose proof (bounded_facts _ _ Hb) as ([He _] & _).
  pose proof (magnitude_lt_infinite _ _ Hb) as Hi.
  assert (HP : magnitude m e * unit_scale = Zpos m * 2 ^ (e + 2148)).
  { unfold magnitude, unit_scale. rewrite <- Z.mul_assoc, <- Z.pow_add_r by lia.
    do 2 f_equal. lia. }
  assert (Hr : rounded 1074 (Zpos m * 2 ^ (e + 2148)) = Zpos m * 2 ^ (e + 2148)).
  { unfold rounded. rewrite last_place_scaled, <- digits_log2 by lia.
    replace (Z.max (Zpos (digits2_pos m) + (e + 2148) - 53) 1074) with (0 + (e + 2148)) by lia.
    rewrite nearest_even_scaled by lia. unfold nearest_even.
    rewrite Z.pow_0_r, Z.mod_1_r, Z.div_1_r. reflexivity. }
  rewrite HP, Hr, <- HP. apply Z.min_l.
  unfold overflow, unit_scale, infinite_magnitude in *.
  replace 3172 with ((emax - emin) + 1074) by lia. rewrite Z.pow_add_r by lia.
  apply Z.mul_le_mono_nonneg_r; [apply Z.lt_le_incl, pow2_pos|]; lia.
Qed.

Lemma round_value_exact (f : spec_float) :
  valid_binary f = true -> finite f ->
  round_value (value f * unit_scale) = value f * unit_scale.
Proof.
  intros Vf Ff. destruct f as [s|s| |s m e]; try contradiction; cbn [value].
  - apply round_value_zero.
  - cbn [valid_binary] in Vf. pose proof (bounded_facts _ _ Vf) as ([He _] & _).
    replace (cond_Zopp s (magnitude m e) * unit_scale)
      with (cond_Zopp s (magnitude m e * unit_scale)) by (destruct s; cbn [cond_Zopp]; lia).
    assert (H0 : 0 <= magnitude m e * unit_scale).
    { apply Z.mul_nonneg_nonneg;
        [apply Z.lt_le_incl, magnitude_pos; lia | apply Z.lt_le_incl, pow2_pos; lia]. }
    rewrite (round_value_signed s _ H0), (rounded_exact m e Vf). reflexivity.
Qed.

Lemma binary_normalize_value (S e : Z) :
  emin <= e ->
  not_nan (binary_normalize prec emax S e false)
  /\ value (binary_normalize prec emax S e false) * unit_scale
     = round_value (S * 2 ^ (e + 2148)).
Proof.
  intros He. destruct S as [|M|M]; cbn [binary_normalize].
  - split; [discriminate|]. cbn [value]. now rewrite !Z.mul_0_l, round_value_zero.
  - destruct (binary_round_value false M e He) as [Hn Hv]. split; [exact Hn|].
    rewrite Hv. symmetry.
    apply (round_value_signed false (Zpos M * 2 ^ (e + 2148))).
    apply Z.mul_nonneg_nonneg; [lia | apply Z.lt_le_incl, pow2_pos; lia].
  - destruct (binary_round_value true M e He) as [Hn Hv]. split; [exact Hn|].
    rewrite Hv. symmetry.
    replace (Zneg M * 2 ^ (e + 2148)) with (cond_Zopp true (Zpos M * 2 ^ (e + 2148)))
      by (cbn [cond_Zopp]; lia).
    apply round_value_signed.
    apply Z.mul_nonneg_nonneg; [lia | apply Z.lt_le_incl, pow2_pos; lia].
Qed.

Lemma SFadd_value (x y : spec_float) :
  valid_binary x = true -> valid_binary y = true -> finite x -> finite y ->
  not_nan (SFadd prec emax x y)
  /\ value (SFadd prec emax x y) * unit_scale
     = round_value ((value x + value y) * unit_scale).
Proof.
  intros Vx Vy Fx Fy.
  destruct x as [sx|sx| |sx mx ex], y as [sy|sy| |sy my ey]; try contradiction.
  - split; [destruct sx, sy; discriminate|].
    replace (value (SFadd prec emax (S754_zero sx) (S754_zero sy))) with 0
      by (destruct sx, sy; reflexivity).
    cbn [value]. replace ((0 + 0) * unit_scale) with 0 by lia.
    now rewrite round_value_zero.
  - cbn [SFadd]. split; [discriminate|].
    replace (value (S754_zero sx) + value (S754_finite sy my ey))
      with (value (S754_finite sy my ey)) by (cbn [value]; lia).
    now rewrite round_value_exact.
  - cbn [SFadd]. split; [discriminate|].
    replace (value (S754_finite sx mx ex) + value (S754_zero sy))
      with (value (S754_finite sx mx ex)) by (cbn [value]; lia).
    now rewrite round_value_exact.
  - cbn [SFadd value valid_binary] in *.
    pose proof (bounded_facts _ _ Vx) as ([Ex _] & _).
    pose proof (bounded_facts _ _ Vy) as ([Ey _] & _).
    match goal with |- context [binary_normalize _ _ _ ?z _] => set (ez := z) in * end.
    assert (Hez : emin <= ez /\ ez <= ex /\ ez <= ey) by (unfold ez; lia).
    pose proof (shl_align_magnitude mx ex ez ltac:(lia)) as Ax.
    pose proof (shl_align_magnitude my ey ez ltac:(lia)) as Ay.
    clearbody ez.
    set (ax := Zpos (fst (shl_align mx ex ez))) in *.
    set (ay := Zpos (fst (shl_align my ey ez))) in *.
    destruct (binary_normalize_value (cond_Zopp sx ax + cond_Zopp sy ay) ez) as [Hn Hv];
      [lia|].
    split; [exact Hn|]. rewrite Hv. f_equal.
    rewrite <- Ax, <- Ay. unfold unit_scale.
    replace (ez + 2148) with ((ez - emin) + 1074) by lia.
    rewrite Z.pow_add_r by lia. destruct sx, sy; cbn [cond_Zopp]; lia.
Qed.

(** *** Finite floats *)

Lemma finite_not_nan (f : spec_float) : finite f -> not_nan f.
Proof. intros H E. now rewrite E in H. Qed.

Lemma is_finite_spec (x : float) :
  PrimFloat.is_finite x = true -> finite (Prim2SF x).
Proof.
  unfold PrimFloat.is_finite, PrimFloat.is_nan, PrimFloat.is_infinity.
  rewrite !FloatAxioms.eqb_spec, FloatAxioms.abs_spec.
  change (Prim2SF infinity) with (S754_infinity false).
  destruct (Prim2SF x) as [s|s| |s m e]; cbn; try discriminate; auto.
  now destruct s.
Qed.

Lemma leb_value (x y : float) :
  not_nan (Prim2SF x) -> not_nan (Prim2SF y) ->
  PrimFloat.leb x y = (value (Prim2SF x) <=? value (Prim2SF y)).
Proof.
  intros Nx Ny. rewrite FloatAxioms.leb_spec. unfold SFleb, Z.leb.
  rewrite compare_value by (auto using Prim2SF_valid).
  now destruct (value (Prim2SF x) ?= value (Prim2SF y)).
Qed.

Lemma unit_scale_pos : 0 < unit_scale.
Proof. apply pow2_pos. lia. Qed.

Lemma value_bound (f : spec_float) :
  valid_binary f = true -> finite f -> Z.abs (value f) < infinite_magnitude.
Proof.
  intros Vf Ff. destruct f as [s|s| |s m e]; try contradiction; cbn [value].
  - apply pow2_pos. lia.
  - cbn [valid_binary] in Vf. pose proof (magnitude_lt_infinite _ _ Vf).
    pose proof (bounded_facts _ _ Vf) as ([He _] & _).
    pose proof (magnitude_pos m e He). destruct s; cbn [cond_Zopp]; lia.
Qed.

Lemma round_value_exact_abs (f : spec_float) :
  valid_binary f = true -> finite f ->
  round_value (Z.abs (value f) * unit_scale) = Z.abs (value f) * unit_scale
  /\ round_value (- Z.abs (value f) * unit_scale) = - Z.abs (value f) * unit_scale.
Proof.
  intros Vf Ff.
  assert (Vo : valid_binary (SFopp f) = true) by (now destruct f).
  assert (Fo : finite (SFopp f)) by (now destruct f).
  assert (Ho : value (SFopp f) = - value f)
    by (destruct f as [s|s| |s m e]; try reflexivity; destruct s; cbn; lia).
  pose proof (round_value_exact f Vf Ff) as E1.
  pose proof (round_value_exact (SFopp f) Vo Fo) as E2. rewrite Ho in E2.
  destruct (Z.abs_spec (value f)) as [[_ ->] | [_ ->]]; rewrite ?Z.opp_involutive; auto.
Qed.

Lemma mul_weight (x w : float) :
  finite (Prim2SF x) -> weight w ->
  finite (Prim2SF (x * w))
  /\ value (Prim2SF (x * w)) * unit_scale
     = round_value (value (Prim2SF x) * value (Prim2SF w)).
Proof.
  intros Fx (Fw & Hw0 & Hw1). rewrite FloatAxioms.mul_spec.
  pose proof (Prim2SF_valid x) as Vx. pose proof (Prim2SF_valid w) as Vw.
  pose proof (Prim2SF_valid (x * w)) as Vr. rewrite FloatAxioms.mul_spec in Vr.
  destruct (SFmul_value _ _ Vx Vw Fx Fw) as [Hn Hv].
  change (SF64mul (Prim2SF x) (Prim2SF w)) with (SFmul prec emax (Prim2SF x) (Prim2SF w)) in *.
  split; [|exact Hv].
  set (vx := value (Prim2SF x)) in *. set (vw := value (Prim2SF w)) in *.
  destruct (round_value_exact_abs _ Vx Fx) as [Ep En]. fold vx in Ep, En.
  pose proof (value_bound _ Vx Fx) as Hb. fold vx in Hb.
  pose proof unit_scale_pos as HU.
  assert (Hhi : round_value (vx * vw) <= Z.abs vx * unit_scale)
    by (rewrite <- Ep; apply round_value_mono; nia).
  assert (Hlo : - Z.abs vx * unit_scale <= round_value (vx * vw))
    by (rewrite <- En; apply round_value_mono; nia).
  destruct (SFmul prec emax (Prim2SF x) (Prim2SF w)) as [s|s| |s m e]; cbn; auto.
  cbn [value] in Hv. rewrite <- Hv in Hhi, Hlo.
  destruct s; cbn [cond_Zopp] in *; nia.
Qed.

Lemma add_finite (a b : float) :
  finite (Prim2SF a) -> finite (Prim2SF b) ->
  not_nan (Prim2SF (a + b))
  /\ value (Prim2SF (a + b)) * unit_scale
     = round_value ((value (Prim2SF a) + value (Prim2SF b)) * unit_scale).
Proof.
  intros Fa Fb. rewrite FloatAxioms.add_spec.
  apply SFadd_value; auto using Prim2SF_valid.
Qed.

Lemma weights_of_table (wetPref : WetPreference) :
  weight (w_wg (@WEIGHT_CONFIG Binary64.number wetPref))
  /\ weight (w_rr (@WEIGHT_CONFIG Binary64.number wetPref)).
Proof. destruct wetPref; vm_compute; intuition discriminate. Qed.

Lemma value_le_scaled (f g : spec_float) :
  value f * unit_scale <= value g * unit_scale -> value f <= value g.
Proof. pose proof unit_scale_pos. nia. Qed.



(** The score is not strictly increasing in binary64: next to a large
    [rr_norm] two different [wg] round to the same score. *)
Example binary64_scores_can_tie :
  nltb (Number:=Binary64.number) (lit 70 0) (lit 71 0) = true
  /\ @score_of Binary64.number (WEIGHT_CONFIG Not) (lit 70 0) (lit (10 ^ 18) 0)
     = @score_of Binary64.number (WEIGHT_CONFIG Not) (lit 71 0) (lit (10 ^ 18) 0).
Proof. split; vm_compute; reflexivity. Qed.

(** *** Scores are numbers *)

Lemma is_finite_not_nan (x : float) :
  PrimFloat.is_finite x = true -> PrimFloat.is_nan x = false.
Proof. intros H. now apply is_nan_spec, finite_not_nan, is_finite_spec. Qed.

Lemma min_finite (a b : float) :
  PrimFloat.is_finite a = true -> PrimFloat.is_finite b = true ->
  finite (Prim2SF (Binary64.math_min a b)).
Proof.
  intros Fa Fb. unfold Binary64.math_min.
  rewrite (is_finite_not_nan a Fa), (is_finite_not_nan b Fb). cbn [orb].
  destruct (a <? b)%float; [now apply is_finite_spec|].
  destruct (b <? a)%float; [now apply is_finite_spec|].
  destruct (get_sign a); now apply is_finite_spec.
Qed.

Lemma sub_not_nan (a b : float) :
  finite (Prim2SF a) -> finite (Prim2SF b) -> not_nan (Prim2SF (a - b)).
Proof.
  intros Fa Fb. rewrite FloatAxioms.sub_spec.
  pose proof (Prim2SF_valid a) as Va. pose proof (Prim2SF_valid b) as Vb.
  destruct (Prim2SF a) as [sa|sa| |sa ma ea], (Prim2SF b) as [sb|sb| |sb mb eb];
    try contradiction; try discriminate; try (destruct sa, sb; discriminate).
  cbn [valid_binary] in *.
  pose proof (bounded_facts _ _ Va) as ([Ea _] & _).
  pose proof (bounded_facts _ _ Vb) as ([Eb _] & _).
  apply binary_normalize_value. lia.
Qed.

Lemma mul_weight_not_nan (x w : float) :
  not_nan (Prim2SF x) -> weight w -> not_nan (Prim2SF (x * w)).
Proof.
  intros Nx Hw. assert (Hw' := Hw). destruct Hw' as (Fw & Hw0 & _).
  destruct (Prim2SF x) as [sx|sx| |sx mx ex] eqn:Ex.
  - apply finite_not_nan, (mul_weight x w); [now rewrite Ex | exact Hw].
  - rewrite FloatAxioms.mul_spec, Ex.
    destruct (Prim2SF w) as [sw|sw| |sw mw ew]; try contradiction;
      [cbn [value] in Hw0; lia | discriminate].
  - now elim Nx.
  - apply finite_not_nan, (mul_weight x w); [now rewrite Ex | exact Hw].
Qed.

Lemma add_not_nan (a b : float) :
  finite (Prim2SF a) -> not_nan (Prim2SF b) -> not_nan (Prim2SF (a + b)).
Proof.
  intros Fa Nb. destruct (Prim2SF b) as [sb|sb| |sb mb eb] eqn:Eb.
  - apply (add_finite a b); [exact Fa | now rewrite Eb].
  - rewrite FloatAxioms.add_spec, Eb.
    destruct (Prim2SF a) as [sa|sa| |sa ma ea]; try contradiction; discriminate.
  - now elim Nb.
  - apply (add_finite a b); [exact Fa | now rewrite Eb].
Qed.

(** With finite fields no score is NaN, so that the comparison function of
    the sort is consistent on the scores. *)
Lemma scores_are_numbers (wetPref : WetPreference) (data : option (list Tire)) :
  (forall t, In t (or_empty data) -> finite_fields t) ->
  forall s, In s (@tiresWithScore Binary64.number wetPref data) ->
            PrimFloat.is_nan (score s) = false.
Proof.
  intros Hfin s Hs. unfold tiresWithScore in Hs. apply in_map_iff in Hs.
  destruct Hs as (t & <- & Ht). unfold validTires in Ht. apply filter_In in Ht.
  destruct Ht as [Hin He]. specialize (Hfin t Hin). unfold finite_fields in Hfin.
  unfold eligible in He.
  destruct (wet_center t) as [wc|] eqn:E1; [|discriminate].
  destruct (wet_edge t) as [we|] eqn:E2; [|discriminate].
  destruct (rr_high_w t) as [r|] eqn:E3; [|discriminate].
  assert (Fwc : PrimFloat.is_finite wc = true) by (apply Hfin; cbn; auto).
  assert (Fwe : PrimFloat.is_finite we = true) by (apply Hfin; cbn; auto).
  assert (Fr : PrimFloat.is_finite r = true) by (apply Hfin; cbn; auto).
  destruct (weights_of_table wetPref) as [Wg Wr].
  unfold withScore, score_of. rewrite E1, E2, E3.
  cbn [score assert_nonnull nadd nmul nsub Math_min lit num Binary64.number].
  apply is_nan_spec, add_not_nan.
  - apply (mul_weight _ _ (min_finite wc we Fwc Fwe) Wg).
  - apply mul_weight_not_nan; [|exact Wr].
    apply sub_not_nan; [now apply is_finite_spec | now apply is_finite_spec].
Qed.

End Binary64Rounding.

Set Implicit Arguments.

(** ** Exact arithmetic *)

Section ExactFacts.
Local Open Scope Q_scope.

Lemma exact_ltb_lt (a b : Q) : Exact.ltb a b = true <-> a < b.
Proof.
  unfold Exact.ltb. rewrite negb_true_iff, <- not_true_iff_false, Qle_bool_iff.
  split; [apply Qnot_le_lt | apply Qlt_not_le].
Qed.

Lemma exact_ltb_ge (a b : Q) : Exact.ltb a b = false <-> b <= a.
Proof.
  unfold Exact.ltb. now rewrite negb_false_iff, Qle_bool_iff.
Qed.

Lemma exact_lawful : @LawfulOrder Exact.number (fun _ => True).
Proof.
  constructor; cbn [nltb nsub lit Exact.number].
  - intros x y _ _. apply eq_true_iff_eq. rewrite !exact_ltb_lt.
    unfold Exact.literal. cbn. lra.
  - intros x _. apply exact_ltb_ge. lra.
  - intros x y z _ _ _. rewrite !exact_ltb_lt. lra.
  - intros x y z _ _ _. rewrite !exact_ltb_lt. intros H.
    destruct (Qlt_le_dec x y); [now left | right; lra].
Qed.

(** With exact arithmetic the score does not decrease when [wg] grows with
    [rr_norm] fixed, nor when [rr_norm] grows with [wg] fixed. *)
Lemma score_monotone_exact (wetPref : WetPreference) (wg wg' rrNorm rrNorm' : Q) :
  wg <= wg' -> rrNorm <= rrNorm' ->
  @score_of Exact.number (WEIGHT_CONFIG wetPref) wg rrNorm
  <= @score_of Exact.number (WEIGHT_CONFIG wetPref) wg' rrNorm
  /\ @score_of Exact.number (WEIGHT_CONFIG wetPref) wg rrNorm
     <= @score_of Exact.number (WEIGHT_CONFIG wetPref) wg rrNorm'.
Proof.
  intros Hwg Hrr.
  destruct wetPref; cbv [score_of WEIGHT_CONFIG w_wg w_rr lit nadd nmul Exact.number
                         Exact.literal]; cbn; split; lra.
Qed.

(** ... and it is even strictly increasing in both. *)
Lemma score_strictly_monotone (wetPref : WetPreference) (wg wg' rrNorm rrNorm' : Q) :
  wg < wg' -> rrNorm < rrNorm' ->
  @score_of Exact.number (WEIGHT_CONFIG wetPref) wg rrNorm
  < @score_of Exact.number (WEIGHT_CONFIG wetPref) wg' rrNorm
  /\ @score_of Exact.number (WEIGHT_CONFIG wetPref) wg rrNorm
     < @score_of Exact.number (WEIGHT_CONFIG wetPref) wg rrNorm'.
Proof.
  intros Hwg Hrr.
  destruct wetPref; cbv [score_of WEIGHT_CONFIG w_wg w_rr lit nadd nmul Exact.number
                         Exact.literal]; cbn; split; lra.
Qed.

End ExactFacts.

(** ** The example of the specification *)

Section Example.
Import SpecExample.

(** C7.  On the example the scores are 37.5, 45.8 and 27.5 in fetch order,
    and the result is item1, item3, item2: in binary64, where each score is
    the double its decimal denotes, and in exact arithmetic. *)
Theorem spec_example :
  (map score (@tiresWithScore Binary64.number Not candidates)
   = [Binary64.literal 375 1; Binary64.literal 458 1; Binary64.literal 275 1]
   /\ map (fun s => tire_id (tire s)) (@rank Binary64.number candidates Not W28)
      = ["item1"; "item3"; "item2"]%string)
  /\ (Forall2 Qeq (map score (@tiresWithScore Exact.number Not candidates))
               [37.5; 45.8; 27.5]%Q
      /\ map (fun s => tire_id (tire s)) (@rank Exact.number candidates Not W28)
         = ["item1"; "item3"; "item2"]%string).
Proof.
  split; split.
  - vm_compute. reflexivity.
  - vm_compute. reflexivity.
  - set (l := map score _). vm_compute in l. subst l.
    repeat (apply Forall2_cons; [vm_compute; reflexivity|]). apply Forall2_nil.
  - vm_compute. reflexivity.
Qed.



Example explanations_after_error_for_item3 :
  map (fun t => (tire_id (tire t), explanation t))
      (results (fst (handleGenerate (@failing_for_item3 Binary64.number) start)))
  = [("item1", "a fine tyre"); ("item3", "综合性能均衡，滚阻与抓地力兼顾");
     ("item2", "a fine tyre")]%string.
Proof. vm_compute. reflexivity. Qed.


End Example.

(** ** The relay *)

Section RelayFacts.
Import Relay.
Local Open Scope string_scope.

Lemma truthy_some (x : option string) (s : string) :
  truthy x = Some s <-> x = Some s /\ s <> "".
Proof.
  unfold truthy. destruct x as [s'|]; [|split; [discriminate | intros [H _]; discriminate]].
  destruct (String.eqb_spec s' ""); split.
  - discriminate.
  - intros [H Hne]. inversion H; subst. contradiction.
  - intros H. inversion H; subst. auto.
  - intros [H _]. exact H.
Qed.


Lemma text_of_some (b : option JSON) (s : string) :
  text_of b = Some s <-> text_field b = Some (JString s).
Proof.
  unfold text_of. destruct (text_field b) as [[| | |s'| |]|]; split; intros H;
    try discriminate; inversion H; auto.
Qed.



(** A [text] that is the empty string is answered 400 as well: the guard is
    [!text]. *)
Lemma empty_text_is_invalid (url : string)
  (fetch : string -> FetchInit -> Settled Upstream) (req : Request) :
  method req = "POST" -> url <> "" ->
  text_field (body req) = Some (JString "") ->
  handler (Some url) fetch req = reply 400 "Invalid payload".
Proof.
  intros Hm Hne Ht. unfold handler. rewrite Hm. cbn [String.eqb Ascii.eqb Bool.eqb negb].
  rewrite (proj2 (truthy_some _ _) (conj eq_refl Hne)).
  apply text_of_some in Ht. now rewrite Ht.
Qed.

(** The relay on concrete requests. *)
Example relay_runs :
  let up (code : Z) (text : string) := fun (_ : string) (_ : FetchInit) =>
        Fulfilled {| up_status := code; up_text := text |} in
  let post (b : option JSON) := {| method := "POST"; body := b |} in
  let hello := Some (JObject [("text", JString "hello")]) in
  response (handler (Some "https://hook") (up 200%Z "{}") (post hello)) = respond 200 "ok"
  /\ fetched (handler (Some "https://hook") (up 200%Z "{}") (post hello))
     = [("https://hook", forwarded "hello")]
  /\ response (handler (Some "https://hook") (up 502%Z "bad gateway") (post hello))
     = respond 502 "bad gateway"
  /\ handler (Some "https://hook") (up 200%Z "{}") (post (Some (JObject [])))
     = reply 400 "Invalid payload"
  /\ handler (Some "https://hook") (up 200%Z "{}")
             (post (Some (JObject [("text", JNumber 7)])))
     = reply 400 "Invalid payload"
  /\ handler None (up 200%Z "{}") (post hello) = reply 500 "Missing FEISHU_WEBHOOK"
  /\ handler (Some "https://hook") (up 200%Z "{}") {| method := "GET"; body := hello |}
     = reply 405 "Method Not Allowed".
Proof. repeat split. Qed.

End RelayFacts.

(** * Further properties of the page *)

Section PageFacts.
Context {N : Number}.
Local Open Scope string_scope.

Lemma Promise_all_length {A : Type} (ps : list (Settled A)) (vs : list A) :
  Promise_all ps = Fulfilled vs -> List.length vs = List.length ps.
Proof.
  revert vs; induction ps as [|p ps IH]; simpl; intros vs H.
  - now inversion H.
  - destruct p as [a|e]; [|discriminate].
    destruct (Promise_all ps) as [l|e]; [|discriminate].
    inversion H; subst. simpl. f_equal. now apply IH.
Qed.

(** What [generate] resolves with has the length of [top3]. *)
Lemma generate_length sb p w (l : list TireWithScore) :
  fst (generate sb p w) = Fulfilled l ->
  exists q, select_tires sb = Fulfilled q /\ error q = None
            /\ List.length l = List.length (rank (data q) p w).
Proof.
  unfold generate. destruct (select_tires sb) as [q|e]; [|discriminate].
  destruct (error q) as [e|] eqn:He; [discriminate|]. cbn [fst]. intros H.
  exists q. split; [reflexivity|]. split; [exact He|].
  apply Promise_all_length in H. now rewrite !length_map in H.
Qed.

Lemma rank_length_le data p w : (List.length (rank data p w) <= 3)%nat.
Proof. rewrite rank_firstn. apply firstn_le_length. Qed.

Lemma rank_length_min data p w :
  List.length (rank data p w) = Nat.min 3 (List.length (filter eligible (or_empty data))).
Proof.
  rewrite rank_firstn, length_firstn, (Permutation_length (merged_perm data p w)).
  unfold tiresWithScore, validTires. now rewrite length_map.
Qed.

(** The two halves of [handleGenerate], run with nothing in between, are
    [handleGenerate]. *)
Lemma generate_begin_end sb (st : PageState) :
  generate_end sb (wetPref st, widthPref st) (generate_begin st) = handleGenerate sb st.
Proof.
  unfold generate_end, handleGenerate, generate_begin. cbn [fst snd].
  now destruct (generate sb (wetPref st) (widthPref st)) as [[l|e] log].
Qed.

(** The fetch of the rows fails, by a returned error or by an exception:
    the failure is logged and nothing else happens; the page shows what it
    showed, with [loading] cleared.  Rows that come back [null] without an
    error are no rows: the result view opens, empty. *)
Theorem fetch_failure_shows_nothing sb (st : PageState) :
  ((exists e, select_tires sb = Rejected e)
   \/ (exists q e, select_tires sb = Fulfilled q /\ error q = Some e) ->
   handleGenerate sb st
   = ({| wetPref := wetPref st; widthPref := widthPref st; results := results st;
         loading := false; showResults := showResults st; feedback := None |},
      ["Error fetching tires:"]))
  /\ (select_tires sb = Fulfilled {| data := None; error := None |} ->
      handleGenerate sb st
      = ({| wetPref := wetPref st; widthPref := widthPref st; results := [];
            loading := false; showResults := true; feedback := None |}, [])).
Proof.
  split.
  - intros [[e He] | (q & e & Hq & He)]; unfold handleGenerate, generate.
    + now rewrite He.
    + now rewrite Hq, He.
  - intros Hq. unfold handleGenerate, generate. now rewrite Hq.
Qed.

(** Started from the input view, the card that says no tyre matches is shown
    exactly when no fetched row has all three measurements. *)
Theorem empty_card_iff_no_eligible_row sb (st : PageState) q :
  select_tires sb = Fulfilled q -> error q = None -> showResults st = false ->
  emptyCard (fst (handleGenerate sb st)) = true <-> filter eligible (or_empty (data q)) = [].
Proof.
  intros Hq He Hs.
  pose proof (rank_length_min (data q) (wetPref st) (widthPref st)) as Hlen.
  unfold emptyCard, handleGenerate.
  destruct (generate sb (wetPref st) (widthPref st)) as [[l|e] log] eqn:Hg;
    cbn [fst showResults results].
  - destruct (@generate_length sb (wetPref st) (widthPref st) l) as (q' & Hq' & _ & Hl).
    { now rewrite Hg. }
    rewrite Hq in Hq'. inversion Hq'; subst q'.
    rewrite Hl, Hlen. cbn [andb]. rewrite Nat.eqb_eq.
    destruct (filter eligible (or_empty (data q))) as [|t ts]; cbn [List.length].
    + split; reflexivity.
    + split; [|discriminate]. destruct (List.length ts) as [|[|[|]]]; discriminate.
  - rewrite Hs. cbn [andb]. split; [discriminate|]. intros Hnone.
    exfalso. unfold generate in Hg. rewrite Hq, He in Hg.
    assert (Hr : rank (data q) (wetPref st) (widthPref st) = []).
    { apply length_zero_iff_nil. rewrite Hlen, Hnone. reflexivity. }
    rewrite Hr in Hg. discriminate.
Qed.

(** ** Reset *)

(** Whatever the backend answered to a generation, a reset afterwards leaves
    the clean input view with the preferences the user had chosen; a click on
    the logo does the same when results are shown and changes nothing when
    they are not. *)
Theorem reset_returns_to_clean_input sb (st : PageState) :
  fst (handleReset (fst (handleGenerate sb st)))
  = {| wetPref := wetPref st; widthPref := widthPref st; results := [];
       loading := false; showResults := false; feedback := None |}
  /\ (forall st', showResults st' = true -> handleLogoClick st' = handleReset st')
  /\ (forall st', showResults st' = false -> handleLogoClick st' = (st', [ScrollToTop])).
Proof.
  split; [|split].
  - unfold handleGenerate.
    now destruct (generate sb (wetPref st) (widthPref st)) as [[l|e] log].
  - intros st' H. unfold handleLogoClick, handleReset. now rewrite H.
  - intros st' H. unfold handleLogoClick. now rewrite H.
Qed.

(** ** The page while the user drives it *)

Lemma step_consistent (e : Event) (u u' : Live) :
  consistent u -> step e u = Some u' -> consistent u'.
Proof.
  intros ([Hl1 Hl2] & Hp & Hv & Hn) Hstep. unfold consistent.
  destruct u as [st pd]. cbn [page pending] in *.
  destruct e as [p|w| |sb| | |env value]; cbn [step page pending] in Hstep.
  - destruct (showResults st) eqn:Hs; [discriminate|]. inversion Hstep; subst; clear Hstep.
    destruct (Hv eq_refl) as [Hr Hf]. cbn. rewrite Hs. repeat split; intros; auto.
  - destruct (showResults st) eqn:Hs; [discriminate|]. inversion Hstep; subst; clear Hstep.
    destruct (Hv eq_refl) as [Hr Hf]. cbn. rewrite Hs. repeat split; intros; auto.
  - destruct (showResults st) eqn:Hs; [discriminate|].
    destruct (loading st) eqn:Hld; [discriminate|]. inversion Hstep; subst; clear Hstep.
    cbn. rewrite Hs. destruct (Hv eq_refl) as [Hr _].
    repeat split; intros; auto; discriminate.
  - destruct pd as [captured|]; [|discriminate]. inversion Hstep; subst; clear Hstep.
    assert (Hs : showResults st = false) by (apply Hp; discriminate).
    destruct (Hv Hs) as [Hr Hf].
    unfold generate_end.
    destruct (generate sb (fst captured) (snd captured)) as [[l|e] log] eqn:Hg;
      cbn [fst page pending loading showResults results feedback].
    + destruct (@generate_length sb (fst captured) (snd captured) l) as (q & _ & _ & Hlen).
      { now rewrite Hg. }
      repeat split; intros; try discriminate; try congruence.
      rewrite Hlen. apply rank_length_le.
    + repeat split; intros; try discriminate; try congruence; auto.
  - destruct (showResults st) eqn:Hs; [|discriminate]. inversion Hstep; subst; clear Hstep.
    cbn. repeat split; intros; auto; try lia.
  - inversion Hstep; subst; clear Hstep. unfold handleLogoClick.
    destruct (showResults st) eqn:Hs; cbn [fst page pending loading showResults results feedback].
    + repeat split; intros; auto; cbn; try lia.
    + destruct (Hv eq_refl) as [Hr Hf]. rewrite Hs. repeat split; intros; auto.
  - destruct (showResults st) eqn:Hs; [|discriminate]. inversion Hstep; subst; clear Hstep.
    cbn. rewrite Hs. repeat split; intros; auto; discriminate.
Qed.

(** However the user clicks and however the backend answers, the page stays
    consistent: [loading] is set exactly while a request is in flight, hence
    no two requests overlap and none runs while results are shown; the input
    view holds neither results nor feedback; at most three results are held. *)
Theorem page_stays_consistent (es : list Event) (u : Live) :
  run es initial = Some u -> consistent u.
Proof.
  assert (H0 : consistent (@initial N)).
  { unfold consistent, initial. cbn. repeat split; auto; try discriminate; try lia. }
  revert H0. generalize (@initial N) as u0.
  induction es as [|e es IH]; intros u0 H0; cbn [run].
  - intros H. inversion H; subst. exact H0.
  - destruct (step e u0) as [u1|] eqn:Hstep; [|discriminate].
    apply IH. exact (step_consistent _ H0 Hstep).
Qed.

(** A preference changed while the request is in flight does not reach it:
    the results that appear are those ranked for the preference at the click,
    while the page, and so the feedback row it would send, carries the later
    one. *)
Theorem preference_changed_while_loading sb (u : Live) (p' : WetPreference) (value : string) :
  showResults (page u) = false -> loading (page u) = false ->
  exists u',
    run [ClickGenerate; PickWet p'; RequestSettles sb] u = Some u'
    /\ results (page u') = results (fst (handleGenerate sb (page u)))
    /\ showResults (page u') = showResults (fst (handleGenerate sb (page u)))
    /\ wetPref (page u') = p'
    /\ q1_importance (feedbackData (page u') value) = wet_value p'.
Proof.
  intros Hs Hl. destruct u as [st pd]. cbn [page] in *.
  cbn [run step page pending]. rewrite Hs, Hl.
  cbn [orb generate_begin showResults page pending]. rewrite Hs. cbn [page pending].
  eexists. split; [reflexivity|].
  unfold generate_end, handleGenerate. cbn [fst snd].
  destruct (generate sb (wetPref st) (widthPref st)) as [[l|e] log]; cbn; auto.
Qed.

(** ** Feedback *)

(** A click on a feedback option marks the option as chosen and touches
    nothing else of the page, whether or not the row can be saved.  The row
    is inserted once, with no retry.  One toast follows: the thanks when the
    insert resolved without an error; otherwise the failure toast, after a
    line on the console. *)
Theorem feedback_is_kept_and_sent_once (env : Browser) (st : PageState) (value : string) :
  let st' := fst (handleFeedback env st value) in
  let effects := snd (handleFeedback env st value) in
  (feedback st' = Some value /\ results st' = results st
   /\ showResults st' = showResults st /\ loading st' = loading st
   /\ wetPref st' = wetPref st /\ widthPref st' = widthPref st)
  /\ inserted effects = [feedbackData st value]
  /\ (insert_feedback env (feedbackData st value) = Fulfilled None ->
      toasts effects = [thanks_toast] /\ logged effects = [])
  /\ (insert_feedback env (feedbackData st value) <> Fulfilled None ->
      toasts effects = [failed_toast] /\ logged effects = ["Error submitting feedback:"]).
Proof.
  intros st' effects. subst st' effects. unfold handleFeedback. cbn [fst snd].
  split; [cbn; auto 6|].
  unfold toasts, inserted, logged, report.
  rewrite !flat_map_app.
  destruct (has_gtag env); cbn [flat_map app feedback_event];
    (destruct (insert_feedback env (feedbackData st value)) as [[e|]|e];
     cbn; (split; [reflexivity|]);
     (split; intros Hi; [try discriminate Hi | try (now elim Hi)]); split; reflexivity).
Qed.




(** ** Copy *)

(** However the two ways to copy fare, the user is handed the tyre's name,
    and told so by exactly one toast.  Either the name is on the clipboard,
    the tyre is marked as copied and the mark is set to be cleared after two
    seconds; or nothing was copied, the mark is left as it was and the toast
    itself shows the name.  The text area of the fallback is removed again,
    unless [execCommand] threw. *)
Theorem copy_hands_over_the_name (env : Browser) (t : TireWithScore) (copiedId : option string) :
  let copiedId' := fst (handleCopy env t copiedId) in
  let effects := snd (handleCopy env t copiedId) in
  ((copiedId' = Some (tire_id (tire t))
    /\ on_clipboard None effects = Some (tireName t)
    /\ toasts effects = [copied_toast]
    /\ timers effects = [2000%Z])
   \/ (copiedId' = copiedId
       /\ on_clipboard None effects = None
       /\ toasts effects = [manual_toast (tireName t)]
       /\ timers effects = []
       /\ reported effects = []))
  /\ (textareas [] effects = [] \/
      (exists e, execCommand_copy env = Rejected e) /\ textareas [] effects = [tireName t]).
Proof.
  intros c effects. subst c effects. unfold handleCopy, report.
  destruct (clipboard_writeText env (tireName t)) as [u|e].
  - split; [left | left]; destruct (has_gtag env); cbn; auto.
  - destruct (execCommand_copy env) as [[|]|e'].
    + split; [left | left]; destruct (has_gtag env); cbn; auto.
    + split; [right | left]; cbn; auto 6.
    + split; [right | right]; cbn; eauto 6.
Qed.

(** ** Title and meta elements *)

(** The effect never creates a meta element, it only fills those it finds.
    With results shown, the title names the first result, [og:title] carries
    the title and [og:description] the description.  With no results to show
    the title goes back to the default but the three meta elements keep what
    they held: after a reset they still describe the last recommendation. *)
Theorem seo_follows_results_but_is_not_reset (st : PageState) (doc : Document) :
  let doc' := updateSEO st doc in
  (isNull (meta_description doc') = isNull (meta_description doc)
   /\ isNull (og_title doc') = isNull (og_title doc)
   /\ isNull (og_description doc') = isNull (og_description doc))
  /\ (forall top1 rest, showResults st = true -> results st = top1 :: rest ->
      doc_title doc' = brand (tire top1) ++ " " ++ model (tire top1)
                         ++ " - 公路车轮胎推荐结果 | Iron Legs"
      /\ og_title doc' = set_content (og_title doc) (doc_title doc')
      /\ (forall d, meta_description doc' = Some d ->
            d = seo_description (results st)
            /\ og_description doc' = set_content (og_description doc) d))
  /\ (showResults st = false \/ results st = [] ->
      doc' = {| doc_title := default_title;
                meta_description := meta_description doc;
                og_title := og_title doc;
                og_description := og_description doc |})
  /\ updateSEO (fst (handleReset st)) doc'
     = {| doc_title := default_title;
          meta_description := meta_description doc';
          og_title := og_title doc';
          og_description := og_description doc' |}.
Proof.
  intros doc'. subst doc'. unfold updateSEO.
  split; [|split; [|split]].
  - destruct (showResults st), (results st);
      destruct (meta_description doc), (og_title doc), (og_description doc); cbn; auto.
  - intros top1 rest Hs Hr. rewrite Hs, Hr. cbn [doc_title og_title meta_description
                                                og_description].
    split; [reflexivity|]. split; [reflexivity|].
    intros d Hd. destruct (meta_description doc); [|discriminate].
    cbn in Hd. inversion Hd; subst. split; reflexivity.
  - intros [Hs | Hr]; [rewrite Hs | rewrite Hr; destruct (showResults st)]; reflexivity.
  - reflexivity.
Qed.

End PageFacts.

(** * Further properties of the ranker *)

Section SelectionFacts.
Context {N : Number}.
Local Open Scope js_scope.

Lemma sortedPreferred_all data p w :
  filter (hasPreferredWidth w) (sortedPreferred data p w) = sortedPreferred data p w
  /\ filter (fun t => negb (hasPreferredWidth w t)) (sortedPreferred data p w) = [].
Proof.
  split; [apply filter_all | apply filter_none]; intros s Hs;
    apply in_sortedPreferred in Hs; now rewrite Hs.
Qed.

Lemma sortedOthers_none data p w :
  filter (hasPreferredWidth w) (sortedOthers data p w) = []
  /\ filter (fun t => negb (hasPreferredWidth w t)) (sortedOthers data p w)
     = sortedOthers data p w.
Proof.
  split; [apply filter_none | apply filter_all]; intros s Hs;
    apply in_sortedOthers in Hs; now rewrite Hs.
Qed.

Lemma in_firstn {A : Type} (n : nat) (l : list A) (x : A) : In x (firstn n l) -> In x l.
Proof. intros H. rewrite <- (firstn_skipn n l). apply in_or_app. now left. Qed.

Lemma filter_firstn_all {A : Type} (f : A -> bool) (n : nat) (l : list A) :
  filter f l = l -> filter f (firstn n l) = firstn n l.
Proof.
  intros H. apply filter_all. intros x Hx.
  assert (Hin : In x (filter f l)) by (rewrite H; eapply in_firstn, Hx).
  now apply filter_In in Hin.
Qed.

Lemma filter_firstn_none {A : Type} (f : A -> bool) (n : nat) (l : list A) :
  filter f l = [] -> filter f (firstn n l) = [].
Proof.
  intros H. apply filter_none. intros x Hx.
  destruct (f x) eqn:E; [|reflexivity].
  assert (Hin : In x (filter f l)) by (apply filter_In; split; [eapply in_firstn, Hx | exact E]).
  rewrite H in Hin. contradiction.
Qed.

(** The places go to the preferred widths first.  The result holds as many
    preferred-width candidates as there are, up to three, and other widths
    only fill the places left; so a candidate of another width is shown only
    when every eligible candidate of a preferred width is shown too. *)
Theorem preferred_widths_fill_first data wetPref widthPref :
  let pref := hasPreferredWidth widthPref in
  let other := fun t => negb (hasPreferredWidth widthPref t) in
  let scored := tiresWithScore wetPref data in
  List.length (filter pref (rank data wetPref widthPref))
  = Nat.min 3 (List.length (filter pref scored))
  /\ List.length (filter other (rank data wetPref widthPref))
     = Nat.min (3 - List.length (filter pref scored)) (List.length (filter other scored))
  /\ (forall a b, In b (rank data wetPref widthPref) -> pref b = false ->
                  In a scored -> pref a = true -> In a (rank data wetPref widthPref)).
Proof.
  intros pref other scored.
  set (SP := sortedPreferred data wetPref widthPref).
  set (SO := sortedOthers data wetPref widthPref).
  assert (HlenP : List.length SP = List.length (filter pref scored))
    by (apply Permutation_length, sort_perm).
  assert (HlenO : List.length SO = List.length (filter other scored))
    by (apply Permutation_length, sort_perm).
  assert (Hrank : rank data wetPref widthPref
                  = firstn 3 SP ++ firstn (3 - List.length SP) SO)
    by (rewrite rank_firstn; apply firstn_app).
  destruct (sortedPreferred_all data wetPref widthPref) as [PP PO].
  destruct (sortedOthers_none data wetPref widthPref) as [OP OO].
  fold SP in PP, PO. fold SO in OP, OO. fold pref in PP, OP. fold other in PO, OO.
  split; [|split].
  - rewrite Hrank, filter_app, (@filter_firstn_all _ _ _ _ PP), (@filter_firstn_none _ _ _ _ OP).
    now rewrite app_nil_r, length_firstn, HlenP.
  - rewrite Hrank, filter_app, (@filter_firstn_none _ _ _ _ PO), (@filter_firstn_all _ _ _ _ OO).
    cbn [app]. now rewrite length_firstn, HlenP, HlenO.
  - intros a b Hb Pb Ha Pa. rewrite Hrank in Hb |- *.
    apply in_app_or in Hb. destruct Hb as [Hb | Hb].
    + apply in_firstn, in_sortedPreferred in Hb. fold pref in Hb. congruence.
    + assert (Hlt : (List.length SP < 3)%nat).
      { destruct (3 - List.length SP)%nat eqn:E; [contradiction | lia]. }
      rewrite firstn_all2 by lia. apply in_or_app. left.
      apply (Permutation_in _ (Permutation_sym (sort_perm _ _))).
      apply filter_In. split; [exact Ha | exact Pa].
Qed.

End SelectionFacts.

Section OrderFacts.
Context {N : Number} (ok : num -> Prop) (L : LawfulOrder ok).
Local Open Scope js_scope.

Let descending (u v : TireWithScore) : Prop := (score u <? score v) = false.

(** Two descending arrangements of the same candidates are the same list,
    when no two different candidates tie. *)
Lemma descending_unique (l1 l2 : list TireWithScore) :
  StronglySorted descending l1 -> StronglySorted descending l2 ->
  Permutation l1 l2 ->
  (forall a b, In a l1 -> In b l1 -> tied (score a) (score b) = true -> a = b) ->
  l1 = l2.
Proof.
  revert l2; induction l1 as [|x l1 IH]; intros l2 S1 S2 HP Hties.
  - apply Permutation_nil in HP. now subst.
  - destruct l2 as [|y l2]; [apply Permutation_sym, Permutation_nil in HP; discriminate|].
    inversion S1 as [|? ? S1' F1]; subst. inversion S2 as [|? ? S2' F2]; subst.
    rewrite Forall_forall in F1, F2.
    assert (Hy : In y (x :: l1))
      by (apply (Permutation_in _ (Permutation_sym HP)); now left).
    assert (Hx : In x (y :: l2)) by (apply (Permutation_in _ HP); now left).
    assert (Exy : x = y).
    { destruct Hy as [E | Hy]; [exact E|]. destruct Hx as [E | Hx]; [now symmetry|].
      apply Hties; [now left | now right |]. unfold tied.
      now rewrite (F1 y Hy), (F2 x Hx). }
    subst y. f_equal. apply IH; auto.
    + now apply Permutation_cons_inv with x.
    + intros a b Ha Hb. apply Hties; now right.
Qed.

(** Dropping rows commutes with reordering them. *)
Lemma filter_perm {Row : Type} (keep : Row -> bool) (rows rows' : list Row) :
  Permutation rows rows' -> Permutation (filter keep rows) (filter keep rows').
Proof.
  induction 1 as [|r rows rows' _ IH|r1 r2 rows|rows rows' rows'' _ IH1 _ IH2]; cbn [filter].
  - constructor.
  - destruct (keep r); [now constructor | exact IH].
  - destruct (keep r1), (keep r2); try reflexivity. apply perm_swap.
  - now transitivity (filter keep rows').
Qed.

Lemma scored_perm data data' p :
  Permutation (or_empty data) (or_empty data') ->
  Permutation (tiresWithScore p data) (tiresWithScore p data').
Proof.
  intros H. unfold tiresWithScore, validTires. now apply Permutation_map, filter_perm.
Qed.

Lemma sorted_class_unique (c : TireWithScore -> bool) (l l' : list TireWithScore) :
  Permutation l l' ->
  (forall s, In s l -> ok (score s)) ->
  (forall a b, In a l -> In b l -> c a = c b -> tied (score a) (score b) = true -> a = b) ->
  sort byScoreDesc (filter c l') = sort byScoreDesc (filter c l).
Proof.
  intros HP Hok Hties.
  assert (HokF : forall l0, Permutation l l0 -> Forall (fun s => ok (score s)) (filter c l0)).
  { intros l0 H0. apply Forall_forall. intros s Hs. apply filter_In in Hs.
    apply Hok, (Permutation_in _ (Permutation_sym H0)), Hs. }
  apply descending_unique.
  - apply (sort_sorted L), HokF, HP.
  - apply (sort_sorted L), HokF. reflexivity.
  - rewrite !sort_perm. now apply filter_perm, Permutation_sym.
  - intros a b Ha Hb.
    apply (Permutation_in _ (sort_perm _ _)), filter_In in Ha.
    apply (Permutation_in _ (sort_perm _ _)), filter_In in Hb.
    destruct Ha as [Ha Ca], Hb as [Hb Cb].
    apply Hties; try apply (Permutation_in _ (Permutation_sym HP)); auto. congruence.
Qed.

(** The query asks for the rows in no particular order.  When no score is
    NaN and no two different candidates of the same width class have tied
    scores, the order in which the rows arrive does not matter: the same
    rows in another order give the same result. *)
Theorem rank_independent_of_fetch_order data data' wetPref widthPref :
  Permutation (or_empty data) (or_empty data') ->
  (forall s, In s (tiresWithScore wetPref data) -> ok (score s)) ->
  (forall a b, In a (tiresWithScore wetPref data) -> In b (tiresWithScore wetPref data) ->
               hasPreferredWidth widthPref a = hasPreferredWidth widthPref b ->
               tied (score a) (score b) = true -> a = b) ->
  rank data' wetPref widthPref = rank data wetPref widthPref.
Proof.
  intros HP Hok Hties. rewrite !rank_firstn. unfold sortedPreferred, sortedOthers.
  pose proof (@scored_perm _ _ wetPref HP) as HS.
  rewrite (@sorted_class_unique (hasPreferredWidth widthPref) _ _ HS Hok Hties).
  rewrite (@sorted_class_unique (fun t => negb (hasPreferredWidth widthPref t)) _ _ HS Hok).
  - reflexivity.
  - intros a b Ha Hb Hc. apply Hties; auto.
    now destruct (hasPreferredWidth widthPref a), (hasPreferredWidth widthPref b).
Qed.

End OrderFacts.

(** * Binary64: a row that measures better never scores lower *)

Unset Implicit Arguments.

Section Binary64Dominance.
Local Open Scope Z_scope.
Local Notation "'prec'" := 53%Z.
Local Notation "'emax'" := 1024%Z.
Local Notation "'emin'" := (-1074)%Z.

(** The greatest finite value. *)
Let greatest : Z := (2 ^ 53 - 1) * 2 ^ 2045.

Lemma value_le_greatest (f : spec_float) :
  valid_binary f = true -> finite f -> Z.abs (value f) <= greatest.
Proof.
  intros Vf Ff. destruct f as [s|s| |s m e]; try contradiction; cbn [value].
  - unfold greatest. cbn [Z.abs]. apply Z.mul_nonneg_nonneg; [lia|]. apply Z.pow_nonneg. lia.
  - cbn [valid_binary] in Vf. pose proof (bounded_facts _ _ Vf) as ([He1 He2] & Hm & _).
    pose proof (magnitude_pos m e He1) as Hpos.
    assert (Hle : magnitude m e <= greatest).
    { unfold magnitude, greatest.
      apply Z.le_trans with ((2 ^ 53 - 1) * 2 ^ (e - emin)).
      - apply Z.mul_le_mono_nonneg_r; [apply Z.pow_nonneg; lia | lia].
      - apply Z.mul_le_mono_nonneg_l; [lia|]. apply Z.pow_le_mono_r; lia. }
    destruct s; cbn [cond_Zopp]; lia.
Qed.

Lemma bounded_value_finite (f : spec_float) :
  not_nan f -> Z.abs (value f) < infinite_magnitude -> finite f.
Proof.
  intros Nf Hb. destruct f as [s|s| |s m e]; cbn; auto.
  - cbn [value] in Hb. destruct s; cbn [cond_Zopp] in Hb;
      assert (0 < infinite_magnitude) by (apply pow2_pos; lia); lia.
Qed.

Lemma SFsub_value (x y : spec_float) :
  valid_binary x = true -> valid_binary y = true -> finite x -> finite y ->
  not_nan (SFsub prec emax x y)
  /\ value (SFsub prec emax x y) * unit_scale
     = round_value ((value x - value y) * unit_scale).
Proof.
  intros Vx Vy Fx Fy.
  destruct x as [sx|sx| |sx mx ex], y as [sy|sy| |sy my ey]; try contradiction.
  - split; [destruct sx, sy; discriminate|].
    replace (value (SFsub prec emax (S754_zero sx) (S754_zero sy))) with 0
      by (destruct sx, sy; reflexivity).
    cbn [value]. replace ((0 - 0) * unit_scale) with 0 by lia.
    now rewrite round_value_zero.
  - cbn [SFsub]. split; [discriminate|].
    replace (value (S754_zero sx) - value (S754_finite sy my ey))
      with (value (S754_finite (negb sy) my ey))
      by (cbn [value]; destruct sy; cbn [negb cond_Zopp]; lia).
    now rewrite round_value_exact.
  - cbn [SFsub]. split; [discriminate|].
    replace (value (S754_finite sx mx ex) - value (S754_zero sy))
      with (value (S754_finite sx mx ex)) by (cbn [value]; lia).
    now rewrite round_value_exact.
  - cbn [SFsub value valid_binary] in *.
    pose proof (bounded_facts _ _ Vx) as ([Ex _] & _).
    pose proof (bounded_facts _ _ Vy) as ([Ey _] & _).
    match goal with |- context [binary_normalize _ _ _ ?z _] => set (ez := z) in * end.
    assert (Hez : emin <= ez /\ ez <= ex /\ ez <= ey) by (unfold ez; lia).
    pose proof (shl_align_magnitude mx ex ez ltac:(lia)) as Ax.
    pose proof (shl_align_magnitude my ey ez ltac:(lia)) as Ay.
    clearbody ez.
    set (ax := Zpos (fst (shl_align mx ex ez))) in *.
    set (ay := Zpos (fst (shl_align my ey ez))) in *.
    destruct (binary_normalize_value (cond_Zopp sx ax - cond_Zopp sy ay) ez) as [Hn Hv];
      [lia|].
    split; [exact Hn|]. rewrite Hv. f_equal.
    rewrite <- Ax, <- Ay. unfold unit_scale.
    replace (ez + 2148) with ((ez - emin) + 1074) by lia.
    rewrite Z.pow_add_r by lia. destruct sx, sy; cbn [cond_Zopp]; lia.
Qed.

Lemma sub_value (a b : float) :
  finite (Prim2SF a) -> finite (Prim2SF b) ->
  not_nan (Prim2SF (a - b))
  /\ value (Prim2SF (a - b)) * unit_scale
     = round_value ((value (Prim2SF a) - value (Prim2SF b)) * unit_scale).
Proof.
  intros Fa Fb. rewrite FloatAxioms.sub_spec.
  apply SFsub_value; auto using Prim2SF_valid.
Qed.

Lemma round_near_greatest :
  round_value ((30 * unit_scale + greatest) * unit_scale) = greatest * unit_scale
  /\ round_value ((30 * unit_scale - greatest) * unit_scale) = - greatest * unit_scale.
Proof. split; vm_compute; reflexivity. Qed.

Lemma thirty_value : value (Prim2SF 30%float) = 30 * unit_scale.
Proof. vm_compute. reflexivity. Qed.

(** [30 - rr] is finite when [rr] is: the difference does not overflow. *)
Lemma rrNorm_finite (r : float) :
  finite (Prim2SF r) ->
  finite (Prim2SF (30 - r))
  /\ value (Prim2SF (30 - r)) * unit_scale
     = round_value ((30 * unit_scale - value (Prim2SF r)) * unit_scale).
Proof.
  intros Fr.
  assert (F30 : finite (Prim2SF 30%float)) by (vm_compute; exact I).
  destruct (sub_value 30%float r F30 Fr) as [Hn Hv]. rewrite thirty_value in Hv.
  split; [|exact Hv].
  pose proof (value_le_greatest _ (Prim2SF_valid r) Fr) as Hr.
  destruct round_near_greatest as [Hhi Hlo].
  pose proof unit_scale_pos as HU.
  assert (H1 : round_value ((30 * unit_scale - value (Prim2SF r)) * unit_scale)
               <= greatest * unit_scale)
    by (rewrite <- Hhi; apply round_value_mono; nia).
  assert (H2 : - greatest * unit_scale
               <= round_value ((30 * unit_scale - value (Prim2SF r)) * unit_scale))
    by (rewrite <- Hlo; apply round_value_mono; nia).
  apply bounded_value_finite; [exact Hn|].
  rewrite <- Hv in H1, H2.
  assert (Hg : greatest < infinite_magnitude) by (vm_compute; reflexivity).
  assert (H30 : 0 < 30 * unit_scale) by lia.
  nia.
Qed.

Lemma min_value (a b : float) :
  PrimFloat.is_finite a = true -> PrimFloat.is_finite b = true ->
  value (Prim2SF (Binary64.math_min a b))
  = Z.min (value (Prim2SF a)) (value (Prim2SF b)).
Proof.
  intros Fa Fb. unfold Binary64.math_min.
  pose proof (is_finite_not_nan a Fa) as Na. pose proof (is_finite_not_nan b Fb) as Nb.
  rewrite Na, Nb. cbn [orb].
  rewrite (ltb_value a b Na Nb), (ltb_value b a Nb Na).
  destruct (Z.ltb_spec (value (Prim2SF a)) (value (Prim2SF b))); [lia|].
  destruct (Z.ltb_spec (value (Prim2SF b)) (value (Prim2SF a))); [lia|].
  destruct (get_sign a); lia.
Qed.

(** A row whose wet grip is at least as good at the centre and at the edge
    and whose rolling resistance is at most as high never scores lower,
    whichever the wet preference: in binary64, roundings included, for the
    finite numbers a row can bring. *)
Theorem better_measurements_never_score_lower (wetPref : WetPreference)
  (t t' : @Tire Binary64.number) (wc we r wc' we' r' : float) :
  wet_center t = Some wc -> wet_edge t = Some we -> rr_high_w t = Some r ->
  wet_center t' = Some wc' -> wet_edge t' = Some we' -> rr_high_w t' = Some r' ->
  finite_fields t -> finite_fields t' ->
  PrimFloat.leb wc wc' = true -> PrimFloat.leb we we' = true ->
  PrimFloat.leb r' r = true ->
  PrimFloat.leb (score (withScore (WEIGHT_CONFIG wetPref) t))
                (score (withScore (WEIGHT_CONFIG wetPref) t')) = true.
Proof.
  intros Ec Ee Er Ec' Ee' Er' Ft Ft' Hc He Hr.
  assert (Fwc : PrimFloat.is_finite wc = true) by (apply Ft; rewrite Ec; cbn; auto).
  assert (Fwe : PrimFloat.is_finite we = true) by (apply Ft; rewrite Ee; cbn; auto).
  assert (Fr : PrimFloat.is_finite r = true) by (apply Ft; rewrite Er; cbn; auto).
  assert (Fwc' : PrimFloat.is_finite wc' = true) by (apply Ft'; rewrite Ec'; cbn; auto).
  assert (Fwe' : PrimFloat.is_finite we' = true) by (apply Ft'; rewrite Ee'; cbn; auto).
  assert (Fr' : PrimFloat.is_finite r' = true) by (apply Ft'; rewrite Er'; cbn; auto).
  rewrite (@withScore_eligible _ _ _ _ _ _ Ec Ee Er), (@withScore_eligible _ _ _ _ _ _ Ec' Ee' Er').
  cbn [score nadd nmul nsub Math_min lit num Binary64.number].
  change (Binary64.literal 30 0) with 30%float.
  destruct (weights_of_table wetPref) as [Wg Wr].
  set (w1 := w_wg (WEIGHT_CONFIG wetPref)) in *.
  set (w2 := w_rr (WEIGHT_CONFIG wetPref)) in *.
  rewrite leb_value in Hc, He, Hr
    by (apply finite_not_nan, is_finite_spec; assumption).
  apply Z.leb_le in Hc, He, Hr.
  pose proof (min_finite wc we Fwc Fwe) as Fm.
  pose proof (min_finite wc' we' Fwc' Fwe') as Fm'.
  pose proof (min_value wc we Fwc Fwe) as Vm.
  pose proof (min_value wc' we' Fwc' Fwe') as Vm'.
  destruct (rrNorm_finite r (is_finite_spec _ Fr)) as [Fn Vn].
  destruct (rrNorm_finite r' (is_finite_spec _ Fr')) as [Fn' Vn'].
  destruct (mul_weight _ w1 Fm Wg) as [FA VA].
  destruct (mul_weight _ w1 Fm' Wg) as [FA' VA'].
  destruct (mul_weight _ w2 Fn Wr) as [FB VB].
  destruct (mul_weight _ w2 Fn' Wr) as [FB' VB'].
  destruct (add_finite _ _ FA FB) as [N1 V1].
  destruct (add_finite _ _ FA' FB') as [N2 V2].
  destruct Wg as (_ & Hw1 & _), Wr as (_ & Hw2 & _).
  pose proof unit_scale_pos as HU.
  assert (Hn : value (Prim2SF (30 - r)) <= value (Prim2SF (30 - r'))).
  { apply value_le_scaled. rewrite Vn, Vn'. apply round_value_mono. nia. }
  assert (HA : value (Prim2SF (Binary64.math_min wc we * w1))
               <= value (Prim2SF (Binary64.math_min wc' we' * w1))).
  { apply value_le_scaled. rewrite VA, VA'. apply round_value_mono. nia. }
  assert (HB : value (Prim2SF ((30 - r) * w2)) <= value (Prim2SF ((30 - r') * w2))).
  { apply value_le_scaled. rewrite VB, VB'. apply round_value_mono. nia. }
  rewrite leb_value by assumption. apply Z.leb_le, value_le_scaled.
  rewrite V1, V2. apply round_value_mono. nia.
Qed.

End Binary64Dominance.

Set Implicit Arguments.

(** * Binary64: the comparison function of the sort *)

Unset Implicit Arguments.

Section Binary64Comparator.
Local Open Scope Z_scope.
Local Notation "'prec'" := 53%Z.
Local Notation "'emax'" := 1024%Z.
Local Notation "'emin'" := (-1074)%Z.

Lemma nonzero_lt_pzero (f : spec_float) : nonzero true f -> SFltb f pzero = true.
Proof. destruct f as [| | |s m e]; cbn; try tauto; now intros ->. Qed.

Lemma signed_lt_pzero (f : spec_float) : signed false f -> SFltb f pzero = false.
Proof. destruct f as [s|s| |s m e]; cbn; try reflexivity; now intros ->. Qed.

(** The sign of a difference, on the negative side: [y - x] is negative
    exactly when [y < x]. *)
Lemma SFsub_negative (x y : spec_float) :
  valid_binary x = true -> valid_binary y = true -> not_nan x -> not_nan y ->
  SFltb (SFsub prec emax y x) pzero = SFltb y x.
Proof.
  intros Vx Vy Nx Ny.
  destruct x as [sx|sx| |sx mx ex], y as [sy|sy| |sy my ey];
    try (now elim Nx); try (now elim Ny);
    try (destruct sx, sy; reflexivity); try (destruct sx; reflexivity);
    try (destruct sy; reflexivity).
  rewrite (SFltb_value _ _ Vy Vx Ny Nx). cbn [SFsub value valid_binary] in *.
  pose proof (bounded_facts _ _ Vx) as ([Ex _] & _).
  pose proof (bounded_facts _ _ Vy) as ([Ey _] & _).
  match goal with |- context [binary_normalize _ _ _ ?z _] => set (ez := z) in * end.
  assert (Hez : emin <= ez /\ ez <= ex /\ ez <= ey) by (unfold ez; lia).
  pose proof (shl_align_magnitude mx ex ez ltac:(lia)) as Ax.
  pose proof (shl_align_magnitude my ey ez ltac:(lia)) as Ay.
  clearbody ez.
  set (ax := Zpos (fst (shl_align mx ex ez))) in *.
  set (ay := Zpos (fst (shl_align my ey ez))) in *.
  assert (Hp : 0 < 2 ^ (ez - emin)) by (apply Z.pow_pos_nonneg; lia).
  assert (HD : (cond_Zopp sy ay - cond_Zopp sx ax) * 2 ^ (ez - emin)
               = cond_Zopp sy (magnitude my ey) - cond_Zopp sx (magnitude mx ex)).
  { rewrite <- Ax, <- Ay. destruct sx, sy; cbn [cond_Zopp]; lia. }
  destruct (cond_Zopp sy ay - cond_Zopp sx ax) as [|D|D] eqn:ED; cbn [binary_normalize].
  - symmetry. apply Z.ltb_ge. lia.
  - rewrite signed_lt_pzero by apply binary_round_signed.
    symmetry. apply Z.ltb_ge. nia.
  - rewrite nonzero_lt_pzero by (apply binary_round_nonzero; lia).
    symmetry. apply Z.ltb_lt. nia.
Qed.

Lemma sub_negative_float (x y : float) :
  PrimFloat.is_nan x = false -> PrimFloat.is_nan y = false ->
  PrimFloat.ltb (y - x) 0 = PrimFloat.ltb y x.
Proof.
  intros Nx Ny. rewrite !FloatAxioms.ltb_spec, FloatAxioms.sub_spec.
  apply SFsub_negative; auto using Prim2SF_valid; now apply is_nan_spec.
Qed.

(** On rows with finite measurements the comparison function
    [(a, b) => b.score - a.score] is a consistent one, roundings included:
    its result is positive exactly when [a] scores less than [b] and negative
    exactly when [a] scores more, so that swapping the arguments swaps the
    sign, and both "sorts before" and "ties with" are transitive.  This is
    what ECMAScript asks of a comparison function for the order [sort]
    produces to be determined. *)
Theorem score_comparison_is_consistent (wetPref : WetPreference)
  (data : option (list Tire)) (a b c : @TireWithScore Binary64.number) :
  (forall t, In t (or_empty data) -> finite_fields t) ->
  In a (tiresWithScore wetPref data) -> In b (tiresWithScore wetPref data) ->
  In c (tiresWithScore wetPref data) ->
  PrimFloat.ltb 0 (byScoreDesc a b) = PrimFloat.ltb (score a) (score b)
  /\ PrimFloat.ltb (byScoreDesc a b) 0 = PrimFloat.ltb (score b) (score a)
  /\ PrimFloat.ltb 0 (byScoreDesc a b) = PrimFloat.ltb (byScoreDesc b a) 0
  /\ (PrimFloat.ltb 0 (byScoreDesc a a) = false /\ PrimFloat.ltb (byScoreDesc a a) 0 = false)
  /\ (PrimFloat.ltb (byScoreDesc a b) 0 = true -> PrimFloat.ltb (byScoreDesc b c) 0 = true ->
      PrimFloat.ltb (byScoreDesc a c) 0 = true)
  /\ (PrimFloat.ltb 0 (byScoreDesc a b) = false -> PrimFloat.ltb (byScoreDesc a b) 0 = false ->
      PrimFloat.ltb 0 (byScoreDesc b c) = false -> PrimFloat.ltb (byScoreDesc b c) 0 = false ->
      PrimFloat.ltb 0 (byScoreDesc a c) = false /\ PrimFloat.ltb (byScoreDesc a c) 0 = false).
Proof.
  intros Hfin Ha Hb Hc.
  pose proof (scores_are_numbers wetPref data Hfin) as Hnan.
  pose proof (Hnan a Ha) as Na. pose proof (Hnan b Hb) as Nb. pose proof (Hnan c Hc) as Nc.
  unfold byScoreDesc. cbn [nsub num Binary64.number].
  rewrite !sub_positive_float, !sub_negative_float by assumption.
  rewrite !ltb_value by assumption.
  repeat split; try apply Z.ltb_irrefl;
    rewrite ?Z.ltb_lt, ?Z.ltb_ge in *; intros; lia.
Qed.

End Binary64Comparator.

Set Implicit Arguments.

(** * Binary64: the result is sorted *)

Section Binary64Sorted.

Lemma sorted_positions {A : Type} (R : A -> A -> Prop) (l : list A) (i j : nat) (a b : A) :
  StronglySorted R l -> (i < j)%nat ->
  nth_error l i = Some a -> nth_error l j = Some b -> R a b.
Proof.
  intros Hs. revert i j. induction Hs as [|x l Hs IH Hx]; intros i j Hij Ha Hb.
  - destruct i; discriminate.
  - destruct j as [|j]; [lia|]. cbn [nth_error] in Hb. destruct i as [|i].
    + cbn in Ha. inversion Ha; subst. rewrite Forall_forall in Hx.
      apply Hx. eapply nth_error_In, Hb.
    + cbn [nth_error] in Ha. apply (IH i j); auto. lia.
Qed.

(** On rows with finite measurements the result is sorted as the
    program computes it, in binary64: an item is never followed by an item
    of its own width class that scores more. *)
Theorem ranking_is_sorted_on_finite_rows (data : option (list Tire))
  (wetPref : WetPreference) (widthPref : WidthPreference)
  (i j : nat) (a b : @TireWithScore Binary64.number) :
  (forall t, In t (or_empty data) -> finite_fields t) ->
  (i < j)%nat ->
  nth_error (rank data wetPref widthPref) i = Some a ->
  nth_error (rank data wetPref widthPref) j = Some b ->
  hasPreferredWidth widthPref a = hasPreferredWidth widthPref b ->
  PrimFloat.ltb (score a) (score b) = false.
Proof.
  intros Hfin Hij Ha Hb Hc.
  pose proof (scores_are_numbers wetPref data Hfin) as Hnan.
  assert (Hsorted : forall c : TireWithScore -> bool,
            StronglySorted (fun u v : @TireWithScore Binary64.number =>
                              PrimFloat.ltb (score u) (score v) = false)
              (sort byScoreDesc (filter c (tiresWithScore wetPref data)))).
  { intros c. apply (sort_sorted binary64_lawful), Forall_forall.
    intros s Hs. apply filter_In in Hs. now apply Hnan. }
  rewrite rank_firstn in Ha, Hb. apply nth_error_firstn_inv in Ha, Hb.
  set (SP := sortedPreferred data wetPref widthPref) in *.
  set (SO := sortedOthers data wetPref widthPref) in *.
  destruct (Nat.lt_ge_cases j (List.length SP)) as [Hj | Hj].
  - rewrite nth_error_app1 in Ha, Hb by lia.
    exact (sorted_positions (Hsorted (hasPreferredWidth widthPref)) Hij Ha Hb).
  - destruct (Nat.lt_ge_cases i (List.length SP)) as [Hi | Hi].
    + rewrite nth_error_app1 in Ha by lia. rewrite nth_error_app2 in Hb by lia.
      apply nth_error_In, in_sortedPreferred in Ha.
      apply nth_error_In, in_sortedOthers in Hb. congruence.
    + rewrite nth_error_app2 in Ha, Hb by lia.
      apply (sorted_positions (Hsorted (fun t => negb (hasPreferredWidth widthPref t)))
               (i := i - List.length SP) (j := j - List.length SP)); auto. lia.
Qed.

End Binary64Sorted.

(** * Further properties of the relay *)

Section RelayMore.
Import Relay.
Local Open Scope string_scope.

(** A status of the 2xx class leaves the relay only as [200 "ok"], and only
    after the webhook itself answered the forwarded payload with a status of
    that class; whatever the webhook said then is not passed on. *)
Theorem relay_succeeds_only_with_upstream (FEISHU_WEBHOOK : option string)
  (fetch : string -> FetchInit -> Settled Upstream) (req : Request) (r : Response) :
  response (handler FEISHU_WEBHOOK fetch req) = Fulfilled r ->
  (200 <= status r <= 299)%Z ->
  r = {| status := 200; sent := "ok" |}
  /\ exists url text upstream,
       FEISHU_WEBHOOK = Some url
       /\ text_field (body req) = Some (JString text)
       /\ fetched (handler FEISHU_WEBHOOK fetch req) = [(url, forwarded text)]
       /\ fetch url (forwarded text) = Fulfilled upstream
       /\ (200 <= up_status upstream <= 299)%Z.
Proof.
  unfold handler.
  destruct (negb (method req =? "POST")); cbn [response fetched respond].
  { intros H Hs. inversion H; subst. cbn in Hs. lia. }
  destruct (truthy FEISHU_WEBHOOK) as [webhook|] eqn:Hw; cbn [response fetched respond].
  2: { intros H Hs. inversion H; subst. cbn in Hs. lia. }
  destruct (truthy (text_of (body req))) as [text|] eqn:Ht; cbn [response fetched respond].
  2: { intros H Hs. inversion H; subst. cbn in Hs. lia. }
  apply truthy_some in Hw, Ht. destruct Hw as [Hw _], Ht as [Ht _].
  apply text_of_some in Ht. fold (forwarded text).
  destruct (fetch webhook (forwarded text)) as [up|e] eqn:Hf; [|discriminate].
  destruct (ok up) eqn:Hok; cbn [negb response fetched respond]; intros H Hs;
    inversion H; subst; cbn [status] in Hs.
  - split; [reflexivity|]. exists webhook, text, up. repeat split; auto;
      unfold ok in Hok; apply andb_true_iff in Hok; rewrite !Z.leb_le in Hok; lia.
  - unfold ok in Hok. apply andb_false_iff in Hok. rewrite !Z.leb_gt in Hok. lia.
Qed.








End RelayMore.

(** * The further properties on the example *)

Section MoreExamples.
Import SpecExample PageExample.
Local Open Scope string_scope.

Let scored (t : Tire) : TireWithScore := withScore (N:=Binary64.number) (WEIGHT_CONFIG Not) t.

Lemma example_fields_finite (t : @Tire Binary64.number) :
  In t (or_empty candidates) -> finite_fields t.
Proof.
  intros [<- | [<- | [<- | []]]] x [E | [E | [E | []]]]; inversion E; reflexivity.
Qed.

(** Fetched in the order item3, item1, item2 the example gives the same
    result. *)
Lemma example_in_another_order :
  @rank Binary64.number reordered Not W28 = rank candidates Not W28.
Proof.
  apply (@rank_independent_of_fetch_order Binary64.number _ binary64_lawful
           candidates reordered Not W28).
  - apply Permutation_sym, (Permutation_cons_app [item1; item2] []), Permutation_refl.
  - apply scores_are_numbers, example_fields_finite.
  - intros a b Ha Hb Hc Ht. vm_compute in Ha, Hb.
    destruct Ha as [<- | [<- | [<- | []]]], Hb as [<- | [<- | [<- | []]]];
      first [ reflexivity
            | vm_compute in Hc; discriminate Hc
            | vm_compute in Ht; discriminate Ht ].
Defined.

(** item1 measures better than item3 in all three respects, and scores no
    lower. *)
Lemma item1_scores_no_lower_than_item3 :
  PrimFloat.leb (score (scored item3)) (score (scored item1)) = true.
Proof.
  apply (better_measurements_never_score_lower Not item3 item1
           (Binary64.literal 60 0) (Binary64.literal 61 0) (Binary64.literal 20 0)
           (Binary64.literal 70 0) (Binary64.literal 72 0) (Binary64.literal 10 0));
    try reflexivity.
  - apply example_fields_finite. cbn. auto.
  - apply example_fields_finite. cbn. auto.
Defined.

(** The comparison function on the scored rows of the example. *)
Lemma example_comparison_is_consistent :
  PrimFloat.ltb 0 (byScoreDesc (scored item1) (scored item2))
  = PrimFloat.ltb (score (scored item1)) (score (scored item2))
  /\ PrimFloat.ltb (byScoreDesc (scored item1) (scored item2)) 0
     = PrimFloat.ltb (score (scored item2)) (score (scored item1))
  /\ PrimFloat.ltb 0 (byScoreDesc (scored item1) (scored item2))
     = PrimFloat.ltb (byScoreDesc (scored item2) (scored item1)) 0
  /\ (PrimFloat.ltb 0 (byScoreDesc (scored item1) (scored item1)) = false
      /\ PrimFloat.ltb (byScoreDesc (scored item1) (scored item1)) 0 = false)
  /\ (PrimFloat.ltb (byScoreDesc (scored item1) (scored item2)) 0 = true ->
      PrimFloat.ltb (byScoreDesc (scored item2) (scored item3)) 0 = true ->
      PrimFloat.ltb (byScoreDesc (scored item1) (scored item3)) 0 = true)
  /\ (PrimFloat.ltb 0 (byScoreDesc (scored item1) (scored item2)) = false ->
      PrimFloat.ltb (byScoreDesc (scored item1) (scored item2)) 0 = false ->
      PrimFloat.ltb 0 (byScoreDesc (scored item2) (scored item3)) = false ->
      PrimFloat.ltb (byScoreDesc (scored item2) (scored item3)) 0 = false ->
      PrimFloat.ltb 0 (byScoreDesc (scored item1) (scored item3)) = false
      /\ PrimFloat.ltb (byScoreDesc (scored item1) (scored item3)) 0 = false).
Proof.
  apply (score_comparison_is_consistent Not candidates
           (scored item1) (scored item2) (scored item3)).
  - apply example_fields_finite.
  - vm_compute. auto.
  - vm_compute. auto.
  - vm_compute. auto.
Defined.

(** In the example's result item1 stands before item3, of the same width,
    and item3 does not outscore it. *)
Lemma example_result_is_sorted :
  PrimFloat.ltb (score (scored item1)) (score (scored item3)) = false.
Proof.
  apply (@ranking_is_sorted_on_finite_rows candidates Not W28 0 1
           (scored item1) (scored item3)).
  - apply example_fields_finite.
  - lia.
  - vm_compute. reflexivity.
  - vm_compute. reflexivity.
  - reflexivity.
Defined.


(** The backend cannot be reached: the page stays as it was. *)
Lemma unreachable_backend_shows_nothing :
  handleGenerate (@unreachable Binary64.number) start
  = ({| wetPref := Not; widthPref := W28; results := [];
        loading := false; showResults := false; feedback := None |},
     ["Error fetching tires:"]).
Proof.
  apply (proj1 (fetch_failure_shows_nothing unreachable start)).
  left. exists "Failed to fetch". reflexivity.
Defined.

(** The only row lacks a measurement: the card is shown. *)
Lemma card_shown_for_unmeasured_row :
  emptyCard (fst (handleGenerate (@nothing_eligible Binary64.number) start)) = true
  <-> filter eligible (or_empty (Some [@unmeasured Binary64.number])) = [].
Proof.
  apply (@empty_card_iff_no_eligible_row Binary64.number nothing_eligible start
           {| data := Some [unmeasured]; error := None |}); reflexivity.
Defined.

(** A preference is chosen, the recommendation generated and rated. *)
Lemma example_session_is_consistent :
  consistent
    {| page := {| wetPref := Not; widthPref := W28;
                  results := results (fst (handleGenerate
                                             (@failing_for_item3 Binary64.number) start));
                  loading := false; showResults := true;
                  feedback := Some "helpful" |};
       pending := None |}.
Proof.
  apply (@page_stays_consistent Binary64.number
           [PickWet Not; ClickGenerate; RequestSettles failing_for_item3;
            ClickFeedback browser "helpful"]).
  vm_compute. reflexivity.
Defined.

(** The user asks for a recommendation not caring about the wet, and
    switches to caring a lot before the answer is there. *)
Lemma example_preference_changed_while_loading :
  exists u' : @Live Binary64.number,
    run [ClickGenerate; PickWet Very; RequestSettles (@failing_for_item3 Binary64.number)]
        {| page := @start Binary64.number; pending := None |} = Some u'
    /\ results (page u') = results (fst (handleGenerate failing_for_item3 start))
    /\ showResults (page u')
       = showResults (fst (handleGenerate (@failing_for_item3 Binary64.number) start))
    /\ wetPref (page u') = Very
    /\ q1_importance (feedbackData (page u') "helpful") = wet_value Very.
Proof.
  apply (@preference_changed_while_loading Binary64.number failing_for_item3
           {| page := start; pending := None |} Very "helpful"); reflexivity.
Defined.


(** The lookup for item3 throws: the page keeps what it showed. *)
Lemma example_lookup_throws :
  results (fst (handleGenerate (@throwing_for_item3 Binary64.number) start)) = results start
  /\ showResults (fst (handleGenerate (@throwing_for_item3 Binary64.number) start))
     = showResults (@start Binary64.number)
  /\ loading (fst (handleGenerate (@throwing_for_item3 Binary64.number) start)) = false.
Proof.
  apply (@lookup_exception_fails_batch Binary64.number throwing_for_item3 start
           {| data := candidates; error := None |} (scored item3)).
  - reflexivity.
  - reflexivity.
  - vm_compute. right. left. reflexivity.
  - left. exists "Failed to fetch". reflexivity.
Defined.

End MoreExamples.

Section RelayExamples.
Import Relay.
Local Open Scope string_scope.

Let hook : string := "https://hook".
Let hello : Request :=
  {| method := "POST"; body := Some (JObject [("text", JString "hello")]) |}.
Let accepting (_ : string) (_ : FetchInit) : Settled Upstream :=
  Fulfilled {| up_status := 204; up_text := "" |}.

(** The webhook answers 204: the relay answers 200 "ok". *)
Lemma relay_answers_ok_after_204 :
  {| status := 200; sent := "ok" |} = {| status := 200; sent := "ok" |}
  /\ exists url text upstream,
       Some hook = Some url
       /\ text_field (body hello) = Some (JString text)
       /\ fetched (handler (Some hook) accepting hello) = [(url, forwarded text)]
       /\ accepting url (forwarded text) = Fulfilled upstream
       /\ (200 <= up_status upstream <= 299)%Z.
Proof.
  apply (@relay_succeeds_only_with_upstream (Some hook) accepting hello
           {| status := 200; sent := "ok" |}).
  - reflexivity.
  - cbn. lia.
Defined.

(** A POST whose text is the empty string. *)
Lemma empty_text_is_answered_400 :
  handler (Some hook) accepting
          {| method := "POST"; body := Some (JObject [("text", JString "")]) |}
  = reply 400 "Invalid payload".
Proof.
  apply (@empty_text_is_invalid hook accepting).
  - reflexivity.
  - discriminate.
  - reflexivity.
Defined.

End RelayExamples.
